(** * simplefs-gcs: a filesystem facade over a flat object store

    Shallow embedding of [gcs_fs.go] (package [simplefs_gcs]) together with
    the parts of Go's standard library and of the storage client that the
    package calls: [path.Clean] / [path.Join], [strings.Count], [sort.Sort],
    [io.Copy], and a bucket of named objects with readers, writers and a
    prefix listing.

    Go strings are byte sequences; they are modelled as [string], whose
    characters are the 256 values of [ascii].  Object contents are
    [list byte]. *)

From Stdlib Require Import String Ascii Strings.Byte List Arith Bool Lia.
From Stdlib Require Import Sorting.Sorted Permutation.
From stdpp Require Import base option list strings gmap.

Open Scope string_scope.
Open Scope list_scope.
Open Scope nat_scope.

(* ===================================================================== *)
(** ** Go's [path] package *)
(* ===================================================================== *)

Module GoPath.

Definition slash : ascii := "/"%char.
Definition dot : ascii := "."%char.

Definition is_slash (c : ascii) : bool := Ascii.eqb c slash.
Definition is_dot (c : ascii) : bool := Ascii.eqb c dot.

(** [r == n || path[r] == '/'] for the unread part [rest] of the path. *)
Definition at_end_or_slash (rest : list ascii) : bool :=
  match rest with
  | [] => true
  | c :: _ => is_slash c
  end.

(** The inner loop of the [..] case:
    [for out.w > dotdot && out.index(out.w) != '/' { out.w-- }]. *)
Fixpoint backtrack (out : list ascii) (dotdot : nat) (w : nat) : nat :=
  match w with
  | 0 => 0
  | S w' =>
      if (dotdot <? w) && negb (is_slash (nth w out slash))
      then backtrack out dotdot w'
      else w
  end.

(** [for ; r < n && path[r] != '/'; r++ { out.append(path[r]) }]:
    the element that is copied and the unread rest. *)
Fixpoint copy_element (rest : list ascii) : list ascii * list ascii :=
  match rest with
  | [] => ([], [])
  | c :: rest' =>
      if is_slash c then ([], rest)
      else let '(e, r) := copy_element rest' in (c :: e, r)
  end.

(** The main loop of [Clean].  [rest] is [path[r:]], [out] is the written
    part [buf[:w]] of the lazy buffer, so [out.w] is [length out].  Every
    iteration reads at least one byte; [fuel] bounds the iterations. *)
Fixpoint Clean_loop (fuel : nat) (rooted : bool)
         (rest out : list ascii) (dotdot : nat) : list ascii :=
  match fuel with
  | 0 => out
  | S fuel' =>
      match rest with
      | [] => out
      | c :: rest1 =>
          if is_slash c then
            (* empty path element *)
            Clean_loop fuel' rooted rest1 out dotdot
          else if is_dot c && at_end_or_slash rest1 then
            (* . element *)
            Clean_loop fuel' rooted rest1 out dotdot
          else if is_dot c
                  && match rest1 with
                     | c1 :: rest2 => is_dot c1 && at_end_or_slash rest2
                     | [] => false
                     end then
            (* .. element: remove to last / *)
            let rest2 := tl rest1 in
            if dotdot <? length out then
              (* can backtrack *)
              let w := backtrack out dotdot (length out - 1) in
              Clean_loop fuel' rooted rest2 (firstn w out) dotdot
            else if negb rooted then
              (* cannot backtrack, but not rooted, so append .. element *)
              let out1 := if 0 <? length out then out ++ [slash] else out in
              let out2 := out1 ++ [dot; dot] in
              Clean_loop fuel' rooted rest2 out2 (length out2)
            else
              Clean_loop fuel' rooted rest2 out dotdot
          else
            (* real path element: add slash if needed, copy element *)
            let out1 :=
              if (rooted && negb (length out =? 1))
                 || (negb rooted && negb (length out =? 0))
              then out ++ [slash] else out in
            let '(e, rest') := copy_element rest in
            Clean_loop fuel' rooted rest' (out1 ++ e) dotdot
      end
  end.

Definition Clean_bytes (p : list ascii) : list ascii :=
  match p with
  | [] => [dot]
  | c :: p' =>
      let rooted := is_slash c in
      let out :=
        if rooted
        then Clean_loop (length p') true p' [slash] 1
        else Clean_loop (length p) false p [] 0 in
      match out with
      | [] => [dot]
      | _ => out
      end
  end.

(** [path.Clean]. *)
Definition Clean (p : string) : string :=
  string_of_list_ascii (Clean_bytes (list_ascii_of_string p)).

(** The loop of [Join] that builds [buf]: an element is appended when
    the buffer is non-empty or the element is non-empty, after a
    separator when the buffer is non-empty. *)
Fixpoint Join_buf (buf : string) (elem : list string) : string :=
  match elem with
  | [] => buf
  | e :: elem' =>
      if (0 <? String.length buf) || negb (String.eqb e "")
      then Join_buf ((if 0 <? String.length buf then buf +:+ "/" else buf) +:+ e)
                    elem'
      else Join_buf buf elem'
  end.

(** [path.Join]. *)
Definition Join (elem : list string) : string :=
  let size := list_sum (List.map String.length elem) in
  if size =? 0 then ""
  else Clean (Join_buf "" elem).

End GoPath.

Arguments GoPath.Join : simpl never.
Arguments GoPath.Clean : simpl never.

(* ===================================================================== *)
(** ** Go's [strings] and [sort] packages, string indexing *)
(* ===================================================================== *)

Module GoStrings.

(** [strings.Count(s, sep)] for a separator of one byte [c]: the number
    of bytes of [s] equal to [c]. *)
Fixpoint Count (s : string) (c : ascii) : nat :=
  match s with
  | EmptyString => 0
  | String a s' => (if Ascii.eqb a c then 1 else 0) + Count s' c
  end.

(** The slice expression [s[i:]]; it panics (here: [None]) when
    [i > len(s)]. *)
Fixpoint slice_from (s : string) (i : nat) {struct i} : option string :=
  match i with
  | 0 => Some s
  | S i' =>
      match s with
      | EmptyString => None
      | String _ s' => slice_from s' i'
      end
  end.

End GoStrings.

Module GoSort.

(** [sort.StringSlice.Less]: [x[i] < x[j]], byte-wise lexicographic. *)
Definition Less (a b : string) : bool := String.ltb a b.

Fixpoint insert (x : string) (l : list string) : list string :=
  match l with
  | [] => [x]
  | y :: l' => if Less y x then y :: insert x l' else x :: l
  end.

(** [sort.Sort] on a [sort.StringSlice]: the slice in ascending order.
    [Less] is a strict total order on strings, so the sorted slice does
    not depend on the sorting algorithm; insertion sort computes it. *)
Fixpoint Sort (l : list string) : list string :=
  match l with
  | [] => []
  | x :: l' => insert x (Sort l')
  end.

End GoSort.

(* ===================================================================== *)
(** ** Error values *)
(* ===================================================================== *)

(** Errors that originate in the storage client. *)
Inductive storage_error : Type :=
| ErrObjectNotExist                 (* storage.ErrObjectNotExist *)
| ErrBackend (msg : string).        (* any other failure of the backend *)

(** Go [error] values seen by the package; [nil] is [None] of
    [option error]. *)
Inductive error : Type :=
| ErrNotFound                       (* simplefs.ErrNotFound *)
| Done                              (* iterator.Done *)
| Errorf (msg : string)             (* fmt.Errorf(msg) *)
| ErrClient (msg : string)          (* failure of storage.NewClient *)
| Storage (e : storage_error).

#[global] Instance storage_error_eq_dec : EqDecision storage_error.
Proof. solve_decision. Defined.

#[global] Instance error_eq_dec : EqDecision error.
Proof. solve_decision. Defined.

(** Outcome of a call: it returns, or the goroutine panics (nil pointer
    dereference, slice bounds out of range). *)
Inductive outcome (A : Type) : Type :=
| Ret (a : A)
| Panic.
Arguments Ret {A} a.
Arguments Panic {A}.

(* ===================================================================== *)
(** ** The storage client: one bucket of named objects *)
(* ===================================================================== *)

Module storage.

(** Failures of the client and the backend, as the state of the world
    decides them: per object name for readers and writers, per prefix for
    listings.  A listing or a read can fail after having delivered some
    items.  A request the client refuses before it is sent (an object
    name that is empty, [.] or [..]) is such a failure of [NewReader] too,
    so an absent object is reported as [ErrObjectNotExist] only where
    [newReaderErr] is not set.  An upload the backend refuses is reported
    by [Close] ([closeErr]); [writeErr] is a [Write] call that itself
    fails. *)
Record Faults : Type := {
  newReaderErr : string -> option storage_error;
  readErr : string -> option (nat * storage_error);
  writeErr : string -> option storage_error;
  closeErr : string -> option storage_error;
  listErr : string -> option (nat * storage_error)
}.

(** The contents of the bucket a [BucketHandle] names. *)
Record Bucket : Type := {
  objects : gmap string (list byte);
  faults : Faults
}.

Definition no_faults : Faults :=
  {| newReaderErr := fun _ => None; readErr := fun _ => None;
     writeErr := fun _ => None; closeErr := fun _ => None;
     listErr := fun _ => None |}.

Record BucketHandle : Type := { bucketName : string }.

(** [storage.Reader]: the bytes it still delivers, and the error that
    ends the stream in place of [io.EOF], if any. *)
Record Reader : Type := { rdata : list byte; rerr : option error }.

(** [storage.Writer]: the object it writes to and the bytes written so
    far; the object is stored when the writer is closed. *)
Record Writer : Type := { wkey : string; wbuf : list byte }.

Record ObjectAttrs : Type := { Name : string }.

(** [storage.ObjectIterator]: the items still to be returned by [Next],
    and the error [Next] returns after them ([Done] at the end of a
    listing that did not fail). *)
Record ObjectIterator : Type := { items : list ObjectAttrs; final : error }.

(** [ObjectHandle.NewReader]. The reader is [nil] when an error is
    returned. *)
Definition NewReader (b : Bucket) (key : string)
  : option Reader * option error :=
  match newReaderErr (faults b) key with
  | Some e => (None, Some (Storage e))
  | None =>
      match objects b !! key with
      | None => (None, Some (Storage ErrObjectNotExist))
      | Some c =>
          match readErr (faults b) key with
          | Some (k, e) =>
              (Some {| rdata := take k c; rerr := Some (Storage e) |}, None)
          | None => (Some {| rdata := c; rerr := None |}, None)
          end
      end
  end.

(** [ObjectHandle.NewWriter]: no request is made before the first write. *)
Definition NewWriter (key : string) : Writer := {| wkey := key; wbuf := [] |}.

(** [Writer.Write]. *)
Definition Write (b : Bucket) (w : Writer) (p : list byte)
  : (nat * option error) * Writer :=
  match writeErr (faults b) (wkey w) with
  | Some e => ((0, Some (Storage e)), w)
  | None => ((length p, None), {| wkey := wkey w; wbuf := wbuf w ++ p |})
  end.

(** [Writer.Close]: the written bytes become the object, replacing any
    previous one; on failure the bucket is unchanged. *)
Definition Close (b : Bucket) (w : Writer) : option error * Bucket :=
  match closeErr (faults b) (wkey w) with
  | Some e => (Some (Storage e), b)
  | None =>
      (None, {| objects := <[wkey w := wbuf w]> (objects b);
                faults := faults b |})
  end.

(** The names of the objects of the bucket, in lexicographic order. *)
Definition names (b : Bucket) : list string :=
  GoSort.Sort (map_to_list (objects b)).*1.

(** [BucketHandle.Objects] with [Query{Prefix: prefix}]: the objects
    whose name starts with [prefix], in lexicographic order of name. *)
Definition Objects (b : Bucket) (prefix : string) : ObjectIterator :=
  let all :=
    List.map Build_ObjectAttrs
             (List.filter (String.prefix prefix) (names b)) in
  match listErr (faults b) prefix with
  | Some (k, e) => {| items := take k all; final := Storage e |}
  | None => {| items := all; final := Done |}
  end.

(** [ObjectIterator.Next]. *)
Definition Next (it : ObjectIterator)
  : (option ObjectAttrs * option error) * ObjectIterator :=
  match items it with
  | a :: rest => ((Some a, None), {| items := rest; final := final it |})
  | [] => ((None, Some (final it)), it)
  end.

(** What one call of [Read] gives: the bytes put in the buffer, [io.EOF]
    at the end of the stream, or the error that ends the stream. *)
Inductive read_result : Type :=
| ReadBytes (p : list byte)
| ReadEOF
| ReadError (e : error).

(** [Reader.Read] into a buffer of [n] bytes. *)
Definition Reader_Read (rd : Reader) (n : nat) : read_result * Reader :=
  match n, rdata rd with
  | 0, _ => (ReadBytes [], rd)
  | _, [] =>
      (match rerr rd with Some e => ReadError e | None => ReadEOF end, rd)
  | _, _ =>
      (ReadBytes (take n (rdata rd)),
       {| rdata := drop n (rdata rd); rerr := rerr rd |})
  end.

(** [Reader.Close]: it reports the error that ended the stream, when the
    stream has ended with one. *)
Definition Reader_Close (rd : Reader) : option error :=
  match rdata rd with
  | [] => rerr rd
  | _ :: _ => None
  end.

End storage.

(* ===================================================================== *)
(** ** Go's [io.Copy] *)
(* ===================================================================== *)

Module GoIo.

(** [io.Copy(w, r)] from a storage reader into a storage writer: what
    the reader delivers is written; the bytes copied and the first
    error met are returned ([io.EOF] is not an error).  Nothing is
    written when the reader delivers nothing. *)
Definition Copy (b : storage.Bucket) (w : storage.Writer) (r : storage.Reader)
  : storage.Writer * (nat * option error) :=
  match storage.rdata r with
  | [] => (w, (0, storage.rerr r))
  | _ :: _ =>
      match storage.Write b w (storage.rdata r) with
      | ((n, Some e), w') => (w', (n, Some e))
      | ((n, None), w') => (w', (n, storage.rerr r))
      end
  end.

End GoIo.

(* ===================================================================== *)
(** ** Package [simplefs_gcs] ([gcs_fs.go]) *)
(* ===================================================================== *)

Module simplefs_gcs.

Import storage.

(** [type fileSystem struct]; the context [c] carries nothing the
    package reads.  [bucket] is a pointer: [None] is [nil]. *)
Record fileSystem : Type := {
  bucket : option BucketHandle;
  prefix : string;
  err : option error
}.

(** [func New]: [client] is the error of [storage.NewClient], if any. *)
Definition New (client : option error) (bucket prefix : string) : fileSystem :=
  match client with
  | Some e => {| bucket := None; prefix := ""; err := Some e |}
  | None =>
      {| bucket := Some {| bucketName := bucket |};
         prefix := prefix; err := None |}
  end.

(** [type file struct]; [r] is an interface value, [None] is [nil]. *)
Record file : Type := { r : option Reader }.

(** [type dirEntry struct]. *)
Record dirEntry : Type := { name : string }.

(** [func (entry *dirEntry) Name]. *)
Definition Name (entry : dirEntry) : string := name entry.

(** [func (entry *dirEntry) IsDir]. *)
Definition IsDir (entry : dirEntry) : bool := false.

(** [func (f *file) ReadDir]. *)
Definition file_ReadDir (f : file) (n : nat)
  : option (list dirEntry) * option error :=
  (None, Some (Errorf "not implemented")).

(** [func (fs *fileSystem) Create].  The method call on a nil bucket
    handle dereferences it. *)
Definition Create (fs : fileSystem) (name : string)
  : outcome (option Writer * option error) :=
  match err fs with
  | Some e => Ret (None, Some e)
  | None =>
      let filename := GoPath.Join [prefix fs; name] in
      match bucket fs with
      | None => Panic
      | Some _ => Ret (Some (NewWriter filename), None)
      end
  end.

(** [func (fs *fileSystem) Open]. *)
Definition Open (fs : fileSystem) (b : Bucket) (name : string)
  : outcome (option file * option error) :=
  let filename := GoPath.Join [prefix fs; name] in
  match bucket fs with
  | None => Panic
  | Some _ =>
      let '(r, err) := NewReader b filename in
      if bool_decide (err = Some (Storage ErrObjectNotExist))
      then Ret (None, Some ErrNotFound)
      else Ret (Some {| r := r |}, err)
  end.

(** [io.Copy(w, r)] where [r] is a [*file]: [file.Read] forwards to the
    wrapped reader, a nil one is dereferenced. *)
Definition Copy_file (b : Bucket) (w : Writer) (f : file)
  : outcome (Writer * (nat * option error)) :=
  match r f with
  | None => Panic
  | Some rd => Ret (GoIo.Copy b w rd)
  end.

(** [func (fs *fileSystem) Append]. *)
Definition Append (fs : fileSystem) (b : Bucket) (name : string)
  : outcome (option Writer * option error) :=
  match Open fs b name with
  | Panic => Panic
  | Ret (r, err) =>
      if bool_decide (err <> None) && bool_decide (err <> Some ErrNotFound)
      then Ret (None, err)
      else
        match Create fs name with
        | Panic => Panic
        | Ret (_, Some e) => Ret (None, Some e)
        | Ret (w, None) =>
            match r with
            | Some f =>
                match w with
                | None => Panic
                | Some w0 =>
                    match Copy_file b w0 f with
                    | Panic => Panic
                    | Ret (_, (_, Some e)) => Ret (None, Some e)
                    | Ret (w1, (_, None)) => Ret (Some w1, None)
                    end
                end
            | None => Ret (w, None)
            end
        end
  end.

(** How the [for] loop of [ReadDir] is left. *)
Inductive loop_exit : Type :=
| Break (names : list string) (found : bool)
| Return (e : error)
| SliceBounds.

(** The [for] loop of [ReadDir], by recursion on the items the iterator
    still returns: on [a :: rest], [it.Next()] is [(a, nil)] and leaves
    [rest]; on [[]] it is [(nil, final)]. *)
Fixpoint ReadDir_loop (prefix : string) (n : nat)
         (items : list ObjectAttrs) (final : error)
         (names : list string) (found : bool) : loop_exit :=
  match items with
  | [] =>
      if bool_decide (final = Done) then Break names found
      else Return final
  | attrs :: rest =>
      if String.eqb (storage.Name attrs) prefix then Return ErrNotFound
      else
        match GoStrings.slice_from (storage.Name attrs) (n + 1) with
        | None => SliceBounds
        | Some name =>
            if 0 <? GoStrings.Count name GoPath.slash
            then ReadDir_loop prefix n rest final names true
            else ReadDir_loop prefix n rest final (names ++ [name]) true
        end
  end.

(** [func (fs *fileSystem) ReadDir]. *)
Definition ReadDir (fs : fileSystem) (b : Bucket) (dir : string)
  : outcome (option (list dirEntry) * option error) :=
  let prefix := GoPath.Join [prefix fs; dir] in
  match bucket fs with
  | None => Panic
  | Some _ =>
      let it := Objects b prefix in
      let n := String.length prefix in
      match ReadDir_loop prefix n (items it) (final it) [] false with
      | SliceBounds => Panic
      | Return e => Ret (None, Some e)
      | Break names found =>
          if negb found then Ret (None, Some ErrNotFound)
          else Ret (Some (List.map Build_dirEntry (GoSort.Sort names)), None)
      end
  end.

(** [func (f *file) Read]: forwards to the wrapped reader; a nil one is
    dereferenced. *)
Definition file_Read (f : file) (n : nat) : outcome (read_result * file) :=
  match r f with
  | None => Panic
  | Some rd =>
      let '(res, rd') := Reader_Read rd n in Ret (res, {| r := Some rd' |})
  end.

(** [func (f *file) Close]. *)
Definition file_Close (f : file) : outcome (option error) :=
  match r f with
  | None => Panic
  | Some rd => Ret (Reader_Close rd)
  end.

End simplefs_gcs.

Import storage simplefs_gcs.

(* ===================================================================== *)
(** ** Vocabulary of the specification *)
(* ===================================================================== *)

(** [a] is not after [b]. *)
Definition ascending (a b : string) : Prop := GoSort.Less b a = false.

(** The name [ReadDir] derives from a listed key: the key without its
    first [n + 1] bytes. *)
Definition rel_name (n : nat) (key : string) : string :=
  default "" (GoStrings.slice_from key (n + 1)).

Definition no_separator (nm : string) : bool :=
  GoStrings.Count nm GoPath.slash =? 0.

(** The names the loop of [ReadDir] collects from the listed keys. *)
Definition child_names (n : nat) (keys : list string) : list string :=
  List.filter no_separator (List.map (rel_name n) keys).

(** What [ReadDir] returns for a resolved prefix and the listing of it. *)
Definition ReadDir_result (P : string) (it : ObjectIterator)
  : outcome (option (list dirEntry) * option error) :=
  let keys := List.map storage.Name (items it) in
  if bool_decide (P ∈ keys) then Ret (None, Some ErrNotFound)
  else if bool_decide (final it = Done) then
    match keys with
    | [] => Ret (None, Some ErrNotFound)
    | _ :: _ =>
        Ret (Some (List.map Build_dirEntry
                            (GoSort.Sort (child_names (String.length P) keys))),
             None)
    end
  else Ret (None, Some (final it)).

(** A bucket holding the given objects, with a backend that does not fail. *)
Definition bucket_of (l : list (string * list byte)) : Bucket :=
  {| objects := list_to_map l; faults := no_faults |}.

(** A bucket like [b] whose backend refuses to open readers on [key]. *)
Definition failing_reader (b : Bucket) (key : string) (e : storage_error)
  : Bucket :=
  {| objects := objects b;
     faults := {| newReaderErr := fun k => if String.eqb k key then Some e
                                           else None;
                  readErr := readErr (faults b);
                  writeErr := writeErr (faults b);
                  closeErr := closeErr (faults b);
                  listErr := listErr (faults b) |} |}.

(** Reading a [*file] to the end through [file.Read]: the bytes the
    wrapped reader delivers and the error that ends them, if any. *)
Definition ReadAll (f : file) : outcome (list byte * option error) :=
  match r f with
  | None => Panic
  | Some rd => Ret (rdata rd, rerr rd)
  end.

(** A caller writes [c] to a writer and closes it; a failed write is
    reported and nothing is stored. *)
Definition write_close (b : Bucket) (w : Writer) (c : list byte)
  : option error * Bucket :=
  match Write b w c with
  | ((_, Some e), _) => (Some e, b)
  | ((_, None), w') => Close b w'
  end.

(** The backend fails no request that concerns the object [key]. *)
Definition fault_free (b : Bucket) (key : string) : Prop :=
  newReaderErr (faults b) key = None /\ readErr (faults b) key = None /\
  writeErr (faults b) key = None /\ closeErr (faults b) key = None.

(** No two consecutive separators. *)
Definition no_double_slash (l : list ascii) : Prop :=
  forall i, l !! i = Some GoPath.slash -> l !! S i = Some GoPath.slash -> False.

(** A trailing separator only in the path ["/"]. *)
Definition no_trailing_slash (l : list ascii) : Prop :=
  last l = Some GoPath.slash -> l = [GoPath.slash].

(** The invariant of the loop of [Clean] on the buffer and on [dotdot]. *)
Definition Clean_inv (rooted : bool) (out : list ascii) (dotdot : nat) : Prop :=
  no_double_slash out
  /\ (last out = Some GoPath.slash -> rooted = true /\ out = [GoPath.slash])
  /\ (rooted = true -> dotdot = 1 /\ head out = Some GoPath.slash)
  /\ (rooted = false ->
      dotdot <= length out /\ last (take dotdot out) <> Some GoPath.slash).

(** A key in canonical form as far as separators go. *)
Definition canonical_separators (s : string) : Prop :=
  no_double_slash (list_ascii_of_string s)
  /\ no_trailing_slash (list_ascii_of_string s).

(** A bucket like [b] whose listing of [prefix] fails with [e] after
    [k] items. *)
Definition failing_listing (b : Bucket) (prefix : string) (k : nat)
           (e : storage_error) : Bucket :=
  {| objects := objects b;
     faults := {| newReaderErr := newReaderErr (faults b);
                  readErr := readErr (faults b);
                  writeErr := writeErr (faults b);
                  closeErr := closeErr (faults b);
                  listErr := fun p => if String.eqb p prefix then Some (k, e)
                                      else listErr (faults b) p |} |}.

(** A bucket like [b] whose readers of [key] fail with [e] after [k]
    bytes. *)
Definition failing_read (b : Bucket) (key : string) (k : nat)
           (e : storage_error) : Bucket :=
  {| objects := objects b;
     faults := {| newReaderErr := newReaderErr (faults b);
                  readErr := fun q => if String.eqb q key then Some (k, e)
                                      else readErr (faults b) q;
                  writeErr := writeErr (faults b);
                  closeErr := closeErr (faults b);
                  listErr := listErr (faults b) |} |}.

(** A caller reads a [*file] to the end with a buffer of [n] bytes, one
    [file.Read] after the other, until [io.EOF] or an error; [fuel]
    bounds the number of calls. *)
Fixpoint read_to_end (fuel n : nat) (f : file) (acc : list byte)
  : option (outcome (list byte * option error)) :=
  match fuel with
  | 0 => None
  | S fuel' =>
      match file_Read f n with
      | Panic => Some Panic
      | Ret (ReadBytes p, f') => read_to_end fuel' n f' (acc ++ p)
      | Ret (ReadEOF, _) => Some (Ret (acc, None))
      | Ret (ReadError e, _) => Some (Ret (acc, Some e))
      end
  end.

(** A path element that [path.Clean] keeps as it is: not empty, without
    a separator, and neither [.] nor [..]. *)
Definition plain_element (nm : string) : Prop :=
  nm <> "" /\ GoStrings.Count nm GoPath.slash = 0 /\ nm <> "." /\ nm <> "..".

(** A resolved directory key under which keys continue with a
    separator: not empty, and neither [.] nor [/]. *)
Definition proper_dir_key (P : string) : Prop :=
  P <> "" /\ P <> "." /\ P <> "/".


(* ===================================================================== *)
(** ** Strings and sorting *)
(* ===================================================================== *)

Section StringFacts.

Lemma prefix_length (p k : string) :
  String.prefix p k = true -> String.length p <= String.length k.
Proof.
  revert k; induction p as [|a p IH]; intros k H; [simpl; lia|].
  destruct k as [|c k]; simpl in *; [discriminate|].
  destruct (ascii_dec a c); [|discriminate].
  apply IH in H. lia.
Qed.

Lemma prefix_same_length (p k : string) :
  String.prefix p k = true -> String.length p = String.length k -> k = p.
Proof.
  revert k; induction p as [|a p IH]; intros k H L.
  - destruct k; [reflexivity|discriminate].
  - destruct k as [|c k]; simpl in *; [discriminate|].
    destruct (ascii_dec a c) as [->|]; [|discriminate].
    f_equal. apply IH; [assumption|lia].
Qed.

Lemma prefix_proper_length (p k : string) :
  String.prefix p k = true -> k <> p -> String.length p < String.length k.
Proof.
  intros H N. pose proof (prefix_length _ _ H) as L.
  destruct (Nat.eq_dec (String.length p) (String.length k)) as [E|E]; [|lia].
  exfalso. apply N. now apply prefix_same_length.
Qed.

Lemma slice_from_is_Some (s : string) (i : nat) :
  i <= String.length s -> is_Some (GoStrings.slice_from s i).
Proof.
  revert s; induction i as [|i IH]; intros s L; simpl.
  { eexists; reflexivity. }
  destruct s as [|c s]; simpl in *; [lia|]. apply IH. lia.
Qed.

Lemma slice_from_append (p s : string) :
  GoStrings.slice_from (p +:+ s) (String.length p) = Some s.
Proof. induction p as [|a p IH]; simpl; [reflexivity|exact IH]. Qed.

Lemma Count_append (s t : string) (c : ascii) :
  GoStrings.Count (s +:+ t) c = GoStrings.Count s c + GoStrings.Count t c.
Proof. induction s as [|a s IH]; simpl; [reflexivity|]. rewrite IH. lia. Qed.

Lemma Less_asym (a b : string) :
  GoSort.Less a b = true -> GoSort.Less b a = false.
Proof.
  unfold GoSort.Less, String.ltb. rewrite (String.compare_antisym b a).
  destruct (String.compare a b); simpl; congruence.
Qed.

Lemma insert_Permutation (x : string) (l : list string) :
  Permutation (GoSort.insert x l) (x :: l).
Proof.
  induction l as [|y l IH]; simpl; [reflexivity|].
  destruct (GoSort.Less y x); [|reflexivity].
  rewrite IH. apply perm_swap.
Qed.

Lemma Sort_Permutation (l : list string) : Permutation (GoSort.Sort l) l.
Proof.
  induction l as [|x l IH]; simpl; [reflexivity|].
  rewrite insert_Permutation. now constructor.
Qed.

Lemma Sort_In (x : string) (l : list string) :
  In x (GoSort.Sort l) <-> In x l.
Proof.
  split; apply Permutation_in;
    [apply Sort_Permutation | symmetry; apply Sort_Permutation].
Qed.

Lemma insert_HdRel (a x : string) (l : list string) :
  ascending a x -> HdRel ascending a l -> HdRel ascending a (GoSort.insert x l).
Proof.
  intros Hx Hl. destruct l as [|y l]; simpl; [now constructor|].
  destruct (GoSort.Less y x); constructor; [|assumption].
  now inversion Hl.
Qed.

Lemma insert_Sorted (x : string) (l : list string) :
  Sorted ascending l -> Sorted ascending (GoSort.insert x l).
Proof.
  induction 1 as [|y l Hs IH Hd]; simpl; [repeat constructor|].
  destruct (GoSort.Less y x) eqn:E.
  - constructor; [assumption|].
    apply insert_HdRel; [|assumption]. now apply Less_asym.
  - constructor; [now constructor|]. constructor. exact E.
Qed.

Lemma Sort_Sorted (l : list string) : Sorted ascending (GoSort.Sort l).
Proof.
  induction l as [|x l IH]; simpl; [constructor|]. now apply insert_Sorted.
Qed.

End StringFacts.

(* ===================================================================== *)
(** ** The directory listing *)
(* ===================================================================== *)

Section ReadDirFacts.

Lemma prefix_refl (p : string) : String.prefix p p = true.
Proof.
  induction p as [|a p IH]; simpl; [reflexivity|].
  destruct (ascii_dec a a); [assumption|congruence].
Qed.

Lemma ReadDir_loop_spec (P : string) (its : list ObjectAttrs) (fin : error) :
  Forall (fun a => String.prefix P (storage.Name a) = true) its ->
  forall names found,
    ReadDir_loop P (String.length P) its fin names found =
      if bool_decide (P ∈ List.map storage.Name its) then Return ErrNotFound
      else if bool_decide (fin = Done)
           then Break (names ++ child_names (String.length P)
                                            (List.map storage.Name its))
                      (match its with [] => found | _ => true end)
           else Return fin.
Proof.
  induction 1 as [|a its Ha Hall IH]; intros names found;
    cbn [ReadDir_loop List.map].
  - assert (bool_decide (P ∈ @nil string) = false) as ->
      by apply bool_decide_eq_false_2, not_elem_of_nil.
    unfold child_names; simpl. rewrite app_nil_r. reflexivity.
  - destruct (String.eqb_spec (storage.Name a) P) as [E|E].
    + assert (bool_decide (P ∈ storage.Name a :: List.map storage.Name its)
              = true) as ->; [|reflexivity].
      apply bool_decide_eq_true_2. rewrite E. apply list_elem_of_here.
    + destruct (slice_from_is_Some (storage.Name a) (String.length P + 1))
        as [nm Hnm].
      { pose proof (prefix_proper_length _ _ Ha E). lia. }
      rewrite Hnm.
      assert (Hin : bool_decide (P ∈ storage.Name a :: List.map storage.Name its)
                    = bool_decide (P ∈ List.map storage.Name its)).
      { apply bool_decide_ext. rewrite elem_of_cons. intuition congruence. }
      rewrite Hin.
      assert (Hrel : rel_name (String.length P) (storage.Name a) = nm)
        by (unfold rel_name; now rewrite Hnm).
      unfold child_names; cbn [List.map List.filter]. rewrite Hrel.
      fold (child_names (String.length P) (List.map storage.Name its)).
      unfold no_separator.
      destruct (GoStrings.Count nm GoPath.slash) as [|c] eqn:Ec; simpl;
        rewrite IH;
        (destruct (bool_decide (P ∈ List.map storage.Name its));
         [reflexivity|]);
        (destruct (bool_decide (fin = Done)); [|reflexivity]).
      * rewrite <- app_assoc. simpl. now destruct its.
      * now destruct its.
Qed.

Lemma Objects_prefix (b : Bucket) (P : string) :
  Forall (fun a => String.prefix P (storage.Name a) = true)
         (items (Objects b P)).
Proof.
  assert (H : Forall (fun a => String.prefix P (storage.Name a) = true)
                (List.map Build_ObjectAttrs
                          (List.filter (String.prefix P) (names b)))).
  { apply List.Forall_forall. intros a Ha.
    apply in_map_iff in Ha as (k & <- & Hk).
    apply filter_In in Hk as [_ Hk]. exact Hk. }
  unfold Objects. destruct (listErr (faults b) P) as [[k e]|]; simpl;
    [now apply Forall_take | exact H].
Qed.

Lemma ReadDir_unfold (bn root : string) (b : Bucket) (dir : string) :
  ReadDir (New None bn root) b dir =
    ReadDir_result (GoPath.Join [root; dir])
                   (Objects b (GoPath.Join [root; dir])).
Proof.
  unfold ReadDir, ReadDir_result; simpl.
  rewrite (ReadDir_loop_spec _ _ _ (Objects_prefix b _)).
  repeat case_bool_decide; try reflexivity.
  simpl. destruct (items (Objects b (GoPath.Join [root; dir]))); reflexivity.
Qed.

Lemma names_spec (b : Bucket) (k : string) :
  In k (names b) <-> is_Some (objects b !! k).
Proof.
  unfold names. rewrite Sort_In, <- list_elem_of_In, list_elem_of_fmap.
  split.
  - intros ([k' c] & -> & H). apply elem_of_map_to_list in H. now exists c.
  - intros [c H]. exists (k, c). split; [reflexivity|].
    now apply elem_of_map_to_list.
Qed.

Lemma listed_keys_spec (b : Bucket) (P k : string) :
  listErr (faults b) P = None ->
  k ∈ List.map storage.Name (items (Objects b P)) <->
  is_Some (objects b !! k) /\ String.prefix P k = true.
Proof.
  intros HF. unfold Objects. rewrite HF; simpl.
  rewrite List.map_map; simpl. rewrite List.map_id.
  rewrite list_elem_of_In, filter_In, names_spec. reflexivity.
Qed.

End ReadDirFacts.

(** C1: with exactly the objects [dir/a.txt], [dir/b.txt] and
    [dir/sub/c.txt] in the bucket (whatever their contents) and a listing
    that does not fail, [ReadDir "dir"] returns exactly the two entries
    [a.txt] and [b.txt], in that order; neither [sub] nor [sub/c.txt] is
    an entry. *)
Theorem ReadDir_dir_example (bn : string) (b : Bucket) (c1 c2 c3 : list byte) :
  objects b = list_to_map [("dir/a.txt", c1); ("dir/b.txt", c2);
                           ("dir/sub/c.txt", c3)] ->
  listErr (faults b) "dir" = None ->
  ReadDir (New None bn "") b "dir"
  = Ret (Some [ {| name := "a.txt" |}; {| name := "b.txt" |} ], None).
Proof.
  intros Ho Hf. rewrite ReadDir_unfold.
  change (GoPath.Join [""; "dir"]) with "dir".
  unfold ReadDir_result, Objects, names. rewrite Hf, Ho.
  vm_compute. reflexivity.
Qed.

Lemma ReadDir_dir_example_witness :
  ReadDir (New None "bucket" "")
          (bucket_of [("dir/a.txt", [x41]); ("dir/b.txt", [x42; x42]);
                      ("dir/sub/c.txt", [])]) "dir"
  = Ret (Some [ {| name := "a.txt" |}; {| name := "b.txt" |} ], None).
Proof.
  apply (ReadDir_dir_example "bucket" _ [x41] [x42; x42] []); reflexivity.
Defined.

(** In terms of what the listing returns: [ReadDir] fails with
    [ErrNotFound] exactly when the listing ends without an item, or an
    item it returns is named by the resolved prefix. *)
Lemma ReadDir_NotFound_listing (bn root : string) (b : Bucket) (dir : string) :
  ReadDir (New None bn root) b dir = Ret (None, Some ErrNotFound)
  <-> (items (Objects b (GoPath.Join [root; dir])) = []
       /\ final (Objects b (GoPath.Join [root; dir])) = Done)
      \/ GoPath.Join [root; dir]
         ∈ List.map storage.Name (items (Objects b (GoPath.Join [root; dir]))).
Proof.
  rewrite ReadDir_unfold. set (P := GoPath.Join [root; dir]).
  assert (Hfin : final (Objects b P) <> ErrNotFound).
  { unfold Objects. destruct (listErr (faults b) P) as [[k e]|]; discriminate. }
  unfold ReadDir_result.
  destruct (decide (P ∈ List.map storage.Name (items (Objects b P)))) as [Hin|Hin].
  - rewrite bool_decide_eq_true_2 by exact Hin. split; auto.
  - rewrite bool_decide_eq_false_2 by exact Hin.
    case_bool_decide as Hd.
    + destruct (items (Objects b P)) as [|a its]; simpl.
      * split; auto.
      * split; [discriminate|]. intros [[? _]|?]; [discriminate|contradiction].
    + split; [intros [= E]; contradiction|].
      intros [[_ ?]|?]; contradiction.
Qed.

(** C2: [ReadDir] fails with [ErrNotFound] exactly when the listing ends
    without an item, or an item it returns is named by the resolved
    prefix.  When the listing itself does not fail, that is: exactly
    when no object name has the resolved prefix, or an object is named
    by the resolved prefix itself; no condition is put on the other
    names, so it fails also when other objects nest under the prefix. *)
Theorem ReadDir_NotFound_iff (bn root : string) (b : Bucket) (dir : string) :
  listErr (faults b) (GoPath.Join [root; dir]) = None ->
  ReadDir (New None bn root) b dir = Ret (None, Some ErrNotFound)
  <-> (forall k, is_Some (objects b !! k) ->
                 String.prefix (GoPath.Join [root; dir]) k = false)
      \/ is_Some (objects b !! GoPath.Join [root; dir]).
Proof.
  intros Hf. rewrite ReadDir_NotFound_listing.
  set (P := GoPath.Join [root; dir]) in *.
  pose proof (fun k => listed_keys_spec b P k Hf) as Hk.
  assert (Hfin : final (Objects b P) = Done) by (unfold Objects; now rewrite Hf).
  assert (Hnil : items (Objects b P) = [] <->
                 forall k, is_Some (objects b !! k) -> String.prefix P k = false).
  { split.
    - intros E k Hs. destruct (String.prefix P k) eqn:Hp; [|reflexivity].
      exfalso. assert (Hc : k ∈ List.map storage.Name (items (Objects b P)))
        by (apply Hk; auto).
      rewrite E in Hc. inversion Hc.
    - intros Hnone. destruct (items (Objects b P)) as [|a its] eqn:E;
        [reflexivity|]. exfalso.
      assert (H0 : storage.Name a ∈ List.map storage.Name (a :: its))
        by apply list_elem_of_here.
      apply Hk in H0 as [Hs Hp]. rewrite (Hnone _ Hs) in Hp. discriminate. }
  rewrite Hnil, Hfin, Hk. split.
  - intros [[H _]|[H _]]; auto.
  - intros [H|H]; [left; auto|right]. split; [assumption|apply prefix_refl].
Qed.

Lemma ReadDir_NotFound_iff_witness :
  ReadDir (New None "bucket" "root")
          (bucket_of [("root/dir", [x41]); ("root/dir/a.txt", [x42])]) "dir"
  = Ret (None, Some ErrNotFound).
Proof.
  apply (ReadDir_NotFound_iff "bucket" "root" _ "dir"); [reflexivity|].
  right. vm_compute. eexists. reflexivity.
Defined.

(** *** The listing as the loop sees it, and where it is as intended *)

Section ListingFacts.

(** One turn of the loop, in terms of [it.Next()]. *)
Lemma ReadDir_loop_Next (P : string) (n : nat) (it : ObjectIterator)
      (names : list string) (found : bool) :
  ReadDir_loop P n (items it) (final it) names found =
    match Next it with
    | ((Some attrs, _), it') =>
        if String.eqb (storage.Name attrs) P then Return ErrNotFound
        else match GoStrings.slice_from (storage.Name attrs) (n + 1) with
             | None => SliceBounds
             | Some name =>
                 ReadDir_loop P n (items it') (final it')
                   (if 0 <? GoStrings.Count name GoPath.slash
                    then names else names ++ [name])
                   true
             end
    | ((None, e), _) =>
        if bool_decide (e = Some Done) then Break names found
        else Return (final it)
    end.
Proof.
  destruct it as [[|a its] fin]; unfold Next; simpl.
  - repeat case_bool_decide; congruence.
  - destruct (String.eqb (storage.Name a) P); [reflexivity|].
    destruct (GoStrings.slice_from (storage.Name a) (n + 1)); [|reflexivity].
    now destruct (0 <? GoStrings.Count s GoPath.slash).
Qed.

Lemma length_append (s t : string) :
  String.length (s +:+ t) = String.length s + String.length t.
Proof.
  induction s as [|a s IH]; [reflexivity|].
  change (S (String.length (s +:+ t)) = S (String.length s + String.length t)).
  now rewrite IH.
Qed.

Lemma prefix_append_inv (p k : string) :
  String.prefix p k = true -> exists t, k = p +:+ t.
Proof.
  revert k; induction p as [|a p IH]; intros k H; [now exists k|].
  destruct k as [|c k]; simpl in H; [discriminate|].
  destruct (ascii_dec a c) as [->|]; [|discriminate].
  destruct (IH k H) as [t ->]. now exists t.
Qed.

(** For a key that continues the prefix with a separator, the name is
    what follows the separator. *)
Lemma rel_name_separated (P rel : string) :
  rel_name (String.length P) ((P +:+ "/") +:+ rel) = rel.
Proof.
  unfold rel_name.
  replace (String.length P + 1) with (String.length (P +:+ "/"))
    by (rewrite length_append; reflexivity).
  now rewrite slice_from_append.
Qed.

Lemma child_names_elem (n : nat) (keys : list string) (x : string) :
  x ∈ child_names n keys -> exists k, k ∈ keys /\ rel_name n k = x.
Proof.
  unfold child_names. rewrite list_elem_of_In, filter_In, in_map_iff.
  intros [(k & <- & Hk) _]. exists k. now rewrite list_elem_of_In.
Qed.

Lemma child_names_NoDup (P : string) (keys : list string) :
  NoDup keys ->
  Forall (fun k => String.prefix (P +:+ "/") k = true) keys ->
  NoDup (child_names (String.length P) keys).
Proof.
  induction 1 as [|k ks Hnin Hnd IH]; intros Hall; [constructor|].
  apply Forall_cons in Hall as [Hk Hall].
  unfold child_names. cbn [List.map List.filter].
  fold (child_names (String.length P) ks).
  destruct (no_separator (rel_name (String.length P) k)); [|now apply IH].
  constructor; [|now apply IH].
  intros Hin. apply child_names_elem in Hin as (k' & Hk' & E).
  apply Hnin. replace k with k'; [assumption|].
  rewrite List.Forall_forall in Hall.
  apply list_elem_of_In, Hall, prefix_append_inv in Hk' as [t' ->].
  apply prefix_append_inv in Hk as [t ->].
  rewrite !rel_name_separated in E. now rewrite E.
Qed.

Lemma filter_NoDup (f : string -> bool) (l : list string) :
  NoDup l -> NoDup (List.filter f l).
Proof.
  induction 1 as [|x l Hnin Hnd IH]; simpl; [constructor|].
  destruct (f x); [|assumption]. constructor; [|assumption].
  rewrite list_elem_of_In, filter_In, <- list_elem_of_In. tauto.
Qed.

Lemma names_NoDup (b : Bucket) : NoDup (names b).
Proof.
  unfold names. rewrite Sort_Permutation. apply NoDup_fst_map_to_list.
Qed.

Lemma entries_names (l : list string) :
  List.map Name (List.map Build_dirEntry l) = l.
Proof. induction l as [|x l IH]; simpl; [reflexivity|]. now rewrite IH. Qed.

(** The names of a listing are in ascending order. *)
Lemma ReadDir_sorted (fs : fileSystem) (b : Bucket) (dir : string)
      (entries : list dirEntry) (e : option error) :
  ReadDir fs b dir = Ret (Some entries, e) ->
  Sorted ascending (List.map Name entries).
Proof.
  unfold ReadDir. destruct (bucket fs); [|discriminate].
  destruct (ReadDir_loop _ _ _ _ _ _) as [nms found| |]; try discriminate.
  destruct (negb found); [discriminate|]. intros [= <- <-].
  rewrite entries_names. apply Sort_Sorted.
Qed.

(** Where every listed key other than the prefix itself continues the
    prefix with a separator, the names of a listing are pairwise
    distinct. *)
Lemma ReadDir_names_NoDup (bn root : string) (b : Bucket) (dir : string)
      (entries : list dirEntry) :
  listErr (faults b) (GoPath.Join [root; dir]) = None ->
  (forall k, is_Some (objects b !! k) ->
             String.prefix (GoPath.Join [root; dir]) k = true ->
             String.prefix (GoPath.Join [root; dir] +:+ "/") k = true) ->
  ReadDir (New None bn root) b dir = Ret (Some entries, None) ->
  NoDup (List.map Name entries).
Proof.
  intros Hf Hsep. rewrite ReadDir_unfold.
  set (P := GoPath.Join [root; dir]) in *.
  unfold ReadDir_result. case_bool_decide; [discriminate|].
  case_bool_decide; [|discriminate].
  destruct (List.map storage.Name (items (Objects b P))) as [|k0 ks] eqn:Ek;
    [discriminate|].
  intros [= <-]. rewrite entries_names, Sort_Permutation, <- Ek.
  unfold Objects. rewrite Hf; simpl.
  rewrite List.map_map; simpl. rewrite List.map_id.
  apply child_names_NoDup; [apply filter_NoDup, names_NoDup|].
  apply List.Forall_forall. intros k Hk.
  apply filter_In in Hk as [Hk Hp]. apply Hsep; [|assumption].
  now apply names_spec.
Qed.

End ListingFacts.

(** C3 (the code at a key that continues the prefix without a
    separator): listing [dir] when the bucket holds [dir/a.txt] and
    [dirab].  The key [dirab] has the prefix [dir]; the loop drops the
    four bytes [dira] and reports the entry [b]. *)
Theorem ReadDir_strips_any_byte :
  ReadDir (New None "bucket" "")
          (bucket_of [("dir/a.txt", []); ("dirab", [])]) "dir"
  = Ret (Some [ {| name := "a.txt" |}; {| name := "b" |} ], None).
Proof. vm_compute. reflexivity. Qed.

(** C4 (the code at two keys that differ only in the byte after the
    prefix): listing [dir] when the bucket holds [dir/a] and [dirxa]
    returns the name [a] twice. *)
Theorem ReadDir_duplicate_names :
  ReadDir (New None "bucket" "")
          (bucket_of [("dir/a", []); ("dirxa", [])]) "dir"
  = Ret (Some [ {| name := "a" |}; {| name := "a" |} ], None).
Proof. vm_compute. reflexivity. Qed.

(** C5: every entry of a listing that [ReadDir] returns reports
    [IsDir() = false]. *)
Theorem ReadDir_entries_not_dir (fs : fileSystem) (b : Bucket) (dir : string)
        (entries : list dirEntry) :
  ReadDir fs b dir = Ret (Some entries, None) ->
  Forall (fun e => IsDir e = false) entries.
Proof. intros _. apply List.Forall_forall. intros e _. reflexivity. Qed.

(** The entry [sub] names a file and is the prefix of a nested key. *)
Lemma ReadDir_entries_not_dir_witness :
  ReadDir (New None "bucket" "")
          (bucket_of [("dir/sub", [x41]); ("dir/sub/c.txt", [x42])]) "dir"
  = Ret (Some [ {| name := "sub" |} ], None)
  /\ Forall (fun e => IsDir e = false) [ {| name := "sub" |} ].
Proof.
  split; [vm_compute; reflexivity|].
  apply (ReadDir_entries_not_dir (New None "bucket" "")
           (bucket_of [("dir/sub", [x41]); ("dir/sub/c.txt", [x42])]) "dir").
  vm_compute. reflexivity.
Defined.

(* ===================================================================== *)
(** ** Streams: open, create, append *)
(* ===================================================================== *)

Section StreamFacts.

Variables (bn root : string).

Lemma NewReader_error_nil (b : Bucket) (key : string) rd e :
  NewReader b key = (rd, Some e) -> rd = None.
Proof.
  unfold NewReader.
  destruct (newReaderErr (faults b) key); [congruence|].
  destruct (objects b !! key); [|congruence].
  destruct (readErr (faults b) key) as [[k e']|]; congruence.
Qed.

Lemma NewReader_absent (b : Bucket) (key : string) :
  objects b !! key = None -> newReaderErr (faults b) key = None ->
  NewReader b key = (None, Some (Storage ErrObjectNotExist)).
Proof. unfold NewReader. now intros -> ->. Qed.

Lemma NewReader_present (b : Bucket) (key : string) (c : list byte) :
  objects b !! key = Some c ->
  newReaderErr (faults b) key = None -> readErr (faults b) key = None ->
  NewReader b key = (Some {| rdata := c; rerr := None |}, None).
Proof. unfold NewReader. now intros -> -> ->. Qed.

Lemma Open_unfold (b : Bucket) (p : string) :
  Open (New None bn root) b p =
    let '(rd, err) := NewReader b (GoPath.Join [root; p]) in
    if bool_decide (err = Some (Storage ErrObjectNotExist))
    then Ret (None, Some ErrNotFound)
    else Ret (Some {| r := rd |}, err).
Proof. reflexivity. Qed.

Lemma Create_unfold (p : string) :
  Create (New None bn root) p
  = Ret (Some (NewWriter (GoPath.Join [root; p])), None).
Proof. reflexivity. Qed.

Lemma write_close_stores (b : Bucket) (w : Writer) (c : list byte) :
  writeErr (faults b) (wkey w) = None ->
  closeErr (faults b) (wkey w) = None ->
  write_close b w c
  = (None, {| objects := <[wkey w := wbuf w ++ c]> (objects b);
              faults := faults b |}).
Proof.
  intros Hw Hc. unfold write_close, Write, Close. rewrite Hw. simpl.
  now rewrite Hc.
Qed.

End StreamFacts.

(** C6: when the backend's [NewReader] fails with [ErrObjectNotExist],
    [Open] fails with [ErrNotFound]; when it fails with any other error,
    [Open] returns that same error value. *)
Theorem Open_error_mapping (bn root p : string) (b : Bucket)
        (rd : option Reader) (e : error) :
  NewReader b (GoPath.Join [root; p]) = (rd, Some e) ->
  (e = Storage ErrObjectNotExist ->
   Open (New None bn root) b p = Ret (None, Some ErrNotFound))
  /\ (e <> Storage ErrObjectNotExist ->
      exists f, Open (New None bn root) b p = Ret (f, Some e)).
Proof.
  intros H. rewrite Open_unfold, H. split.
  - intros ->. now rewrite bool_decide_eq_true_2.
  - intros N. rewrite bool_decide_eq_false_2 by congruence. eauto.
Qed.

Lemma Open_error_mapping_witness :
  Open (New None "bucket" "root") (bucket_of []) "x.txt"
  = Ret (None, Some ErrNotFound)
  /\ exists f,
      Open (New None "bucket" "root")
           (failing_reader (bucket_of [("root/x.txt", [x41])]) "root/x.txt"
                           (ErrBackend "permission denied")) "x.txt"
      = Ret (f, Some (Storage (ErrBackend "permission denied"))).
Proof.
  split.
  - apply (Open_error_mapping "bucket" "root" "x.txt" (bucket_of []) None
             (Storage ErrObjectNotExist)); reflexivity.
  - apply (Open_error_mapping "bucket" "root" "x.txt"
             (failing_reader (bucket_of [("root/x.txt", [x41])]) "root/x.txt"
                             (ErrBackend "permission denied"))
             None (Storage (ErrBackend "permission denied")));
      [reflexivity|discriminate].
Defined.

(** C10: when [NewReader] fails with an error other than
    [ErrObjectNotExist], [Open] returns that error together with a
    non-nil [*file] whose reader is nil; when it fails with
    [ErrObjectNotExist], [Open] returns a nil handle with [ErrNotFound];
    and a nil handle is returned in that case only. *)
Theorem Open_failure_handle (bn root p : string) (b : Bucket) :
  (forall rd e,
      NewReader b (GoPath.Join [root; p]) = (rd, Some e) ->
      e <> Storage ErrObjectNotExist ->
      Open (New None bn root) b p = Ret (Some {| r := None |}, Some e))
  /\ (forall rd,
         NewReader b (GoPath.Join [root; p])
         = (rd, Some (Storage ErrObjectNotExist)) ->
         Open (New None bn root) b p = Ret (None, Some ErrNotFound))
  /\ (forall err,
         Open (New None bn root) b p = Ret (None, err) ->
         snd (NewReader b (GoPath.Join [root; p]))
         = Some (Storage ErrObjectNotExist)
         /\ err = Some ErrNotFound).
Proof.
  split; [|split].
  - intros rd e H N. rewrite Open_unfold, H.
    rewrite bool_decide_eq_false_2 by congruence.
    now rewrite (NewReader_error_nil _ _ _ _ H).
  - intros rd H. rewrite Open_unfold, H.
    now rewrite bool_decide_eq_true_2.
  - intros err. rewrite Open_unfold.
    destruct (NewReader b (GoPath.Join [root; p])) as [rd e].
    case_bool_decide as E; [|discriminate].
    intros [= <-]. auto.
Qed.

Lemma Open_failure_handle_witness :
  Open (New None "bucket" "root")
       (failing_reader (bucket_of [("root/x.txt", [x41])]) "root/x.txt"
                       (ErrBackend "permission denied")) "x.txt"
  = Ret (Some {| r := None |}, Some (Storage (ErrBackend "permission denied")))
  /\ Open (New None "bucket" "root") (bucket_of [("root/y.txt", [x41])]) "x.txt"
     = Ret (None, Some ErrNotFound).
Proof.
  split.
  - apply (proj1 (Open_failure_handle "bucket" "root" "x.txt" _) None);
      [reflexivity|discriminate].
  - apply (proj1 (proj2 (Open_failure_handle "bucket" "root" "x.txt"
                           (bucket_of [("root/y.txt", [x41])]))) None).
    reflexivity.
Defined.

(** C7: on a backend that fails no request for the object, writing [c1]
    through [Create] and closing, then writing [c2] through [Append] and
    closing, stores [c1 ++ c2] at the resolved key, and [Open] then reads
    [c1 ++ c2] to the end. *)
Theorem create_then_append (bn root p : string) (b : Bucket)
        (c1 c2 : list byte) :
  fault_free b (GoPath.Join [root; p]) ->
  exists w1 b1 w2 b2,
    Create (New None bn root) p = Ret (Some w1, None)
    /\ write_close b w1 c1 = (None, b1)
    /\ Append (New None bn root) b1 p = Ret (Some w2, None)
    /\ write_close b1 w2 c2 = (None, b2)
    /\ objects b2 !! GoPath.Join [root; p] = Some (c1 ++ c2)
    /\ exists f, Open (New None bn root) b2 p = Ret (Some f, None)
                 /\ ReadAll f = Ret (c1 ++ c2, None).
Proof.
  intros (Hn & Hr & Hw & Hc).
  set (key := GoPath.Join [root; p]) in *.
  set (b1 := {| objects := <[key := c1]> (objects b); faults := faults b |}).
  set (b2 := {| objects := <[key := c1 ++ c2]> (objects b1);
                faults := faults b |}).
  exists (NewWriter key), b1, {| wkey := key; wbuf := c1 |}, b2.
  assert (H1 : NewReader b1 key = (Some {| rdata := c1; rerr := None |}, None)).
  { apply NewReader_present; [apply lookup_insert_eq|assumption..]. }
  assert (H2 : NewReader b2 key
               = (Some {| rdata := c1 ++ c2; rerr := None |}, None)).
  { apply NewReader_present; [apply lookup_insert_eq|assumption..]. }
  split; [reflexivity|].
  split; [now apply (write_close_stores b (NewWriter key) c1)|].
  split.
  { unfold Append. rewrite Open_unfold, Create_unfold. fold key. rewrite H1.
    simpl. unfold GoIo.Copy, Write; simpl.
    destruct c1 as [|x c1]; [reflexivity|]. fold key. now rewrite Hw. }
  split; [now apply (write_close_stores b1 {| wkey := key; wbuf := c1 |} c2)|].
  split; [apply lookup_insert_eq|].
  eexists. rewrite Open_unfold. fold key. rewrite H2.
  split; reflexivity.
Qed.

Lemma create_then_append_witness :
  exists w1 b1 w2 b2,
    Create (New None "bucket" "root") "log.txt" = Ret (Some w1, None)
    /\ write_close (bucket_of [("root/log.txt", [x30])]) w1 [x41; x42]
       = (None, b1)
    /\ Append (New None "bucket" "root") b1 "log.txt" = Ret (Some w2, None)
    /\ write_close b1 w2 [x43] = (None, b2)
    /\ objects b2 !! GoPath.Join ["root"; "log.txt"] = Some ([x41; x42] ++ [x43])
    /\ exists f, Open (New None "bucket" "root") b2 "log.txt" = Ret (Some f, None)
                 /\ ReadAll f = Ret ([x41; x42] ++ [x43], None).
Proof.
  apply (create_then_append "bucket" "root" "log.txt"
           (bucket_of [("root/log.txt", [x30])]) [x41; x42] [x43]).
  repeat split; reflexivity.
Defined.

(** The storage client reports its own failures, never the
    [ErrNotFound] of this package. *)
Lemma NewReader_error_storage (b : Bucket) (key : string) rd e :
  NewReader b key = (rd, Some e) -> exists se, e = Storage se.
Proof.
  unfold NewReader.
  destruct (newReaderErr (faults b) key) as [se|]; [intros [= _ <-]; eauto|].
  destruct (objects b !! key); [|intros [= _ <-]; eauto].
  destruct (readErr (faults b) key) as [[k e']|]; discriminate.
Qed.

(** C8: whenever the internal [Open] reports [ErrNotFound], which is how
    [Append] sees that no object exists, [Append] succeeds and returns
    what [Create] returns, a fresh writer and no error, and what is then
    written and closed is exactly the stored content; and whenever the
    internal [Open] fails with an error other than [ErrNotFound],
    [Append] returns no writer and that error. *)
Theorem Append_absent_object (bn root p : string) (b : Bucket) :
  (forall f,
      Open (New None bn root) b p = Ret (f, Some ErrNotFound) ->
      Append (New None bn root) b p = Create (New None bn root) p
      /\ Append (New None bn root) b p
         = Ret (Some (NewWriter (GoPath.Join [root; p])), None)
      /\ forall c,
          writeErr (faults b) (GoPath.Join [root; p]) = None ->
          closeErr (faults b) (GoPath.Join [root; p]) = None ->
          exists b',
            write_close b (NewWriter (GoPath.Join [root; p])) c = (None, b')
            /\ objects b' !! GoPath.Join [root; p] = Some c)
  /\ (forall f e,
         Open (New None bn root) b p = Ret (f, Some e) ->
         e <> ErrNotFound ->
         Append (New None bn root) b p = Ret (None, Some e)).
Proof.
  set (key := GoPath.Join [root; p]). split.
  - intros f HO.
    assert (Hf : f = None).
    { rewrite Open_unfold in HO. fold key in HO.
      destruct (NewReader b key) as [rd err] eqn:HN.
      case_bool_decide as E; [now injection HO as <-|].
      injection HO as <- ->.
      destruct (NewReader_error_storage _ _ _ _ HN) as [se Hse].
      discriminate. }
    subst f.
    assert (HA : Append (New None bn root) b p = Ret (Some (NewWriter key), None)).
    { unfold Append. rewrite HO, Create_unfold. reflexivity. }
    split; [now rewrite HA, Create_unfold|]. split; [exact HA|].
    intros c Hw Hc. eexists. split.
    + now apply (write_close_stores b (NewWriter key) c).
    + simpl. apply lookup_insert_eq.
  - intros f e HO N. unfold Append. rewrite HO.
    rewrite !bool_decide_eq_true_2 by congruence. reflexivity.
Qed.

Lemma Append_absent_object_witness :
  (Append (New None "bucket" "root") (bucket_of []) "x.txt"
   = Create (New None "bucket" "root") "x.txt"
   /\ exists b',
       write_close (bucket_of []) (NewWriter "root/x.txt") [x41; x42]
       = (None, b')
       /\ objects b' !! "root/x.txt" = Some [x41; x42])
  /\ Append (New None "bucket" "root")
            (failing_reader (bucket_of [("root/x.txt", [x41])]) "root/x.txt"
                            (ErrBackend "permission denied")) "x.txt"
     = Ret (None, Some (Storage (ErrBackend "permission denied"))).
Proof.
  split.
  - destruct (proj1 (Append_absent_object "bucket" "root" "x.txt" (bucket_of []))
                None eq_refl) as (HA & _ & HW).
    split; [exact HA|]. apply (HW [x41; x42]); reflexivity.
  - apply (proj2 (Append_absent_object "bucket" "root" "x.txt"
                    (failing_reader (bucket_of [("root/x.txt", [x41])])
                                    "root/x.txt"
                                    (ErrBackend "permission denied")))
             (Some {| r := None |}));
      [reflexivity|discriminate].
Defined.

(* ===================================================================== *)
(** ** The path resolver *)
(* ===================================================================== *)

Section CleanFacts.

Import GoPath.

Lemma is_slash_true (c : ascii) : is_slash c = true <-> c = slash.
Proof. unfold is_slash. apply Ascii.eqb_eq. Qed.

Lemma is_slash_false (c : ascii) : is_slash c = false <-> c <> slash.
Proof. unfold is_slash. apply Ascii.eqb_neq. Qed.

Lemma no_double_slash_take (l : list ascii) (n : nat) :
  no_double_slash l -> no_double_slash (take n l).
Proof.
  intros H i H1 H2. apply lookup_take_Some in H1 as [H1 _].
  apply lookup_take_Some in H2 as [H2 _]. eauto.
Qed.

Lemma no_double_slash_snoc (l : list ascii) (c : ascii) :
  no_double_slash l -> (last l <> Some slash \/ c <> slash) ->
  no_double_slash (l ++ [c]).
Proof.
  intros H Hc i H1 H2.
  apply lookup_snoc_Some in H2 as [[Hlt H2]|[Hlen Hs]].
  - rewrite lookup_app_l in H1 by lia. eauto.
  - rewrite lookup_app_l in H1 by lia.
    destruct Hc as [Hc|Hc]; [|congruence].
    apply Hc. rewrite last_lookup. rewrite <- Hlen. exact H1.
Qed.

Lemma no_double_slash_app_element (l e : list ascii) :
  no_double_slash l -> Forall (fun c => c <> slash) e ->
  no_double_slash (l ++ e).
Proof.
  intros Hl He. revert l Hl.
  induction He as [|c e Hc He IH]; intros l Hl.
  - now rewrite app_nil_r.
  - rewrite (cons_middle c l e), app_assoc. apply IH.
    apply no_double_slash_snoc; auto.
Qed.

Lemma last_app_element (l e : list ascii) (c : ascii) :
  Forall (fun c => c <> slash) (c :: e) -> last (l ++ c :: e) <> Some slash.
Proof.
  intros He Hl. rewrite last_app_cons in Hl.
  assert (Hin : slash ∈ c :: e).
  { apply list_elem_of_lookup. exists (Init.Nat.pred (length (c :: e))).
    now rewrite <- last_lookup. }
  rewrite List.Forall_forall in He.
  apply (He slash); [now apply list_elem_of_In|reflexivity].
Qed.

Lemma copy_element_spec (rest : list ascii) :
  forall e r, copy_element rest = (e, r) ->
              Forall (fun c => c <> slash) e /\ rest = e ++ r.
Proof.
  induction rest as [|c rest IH]; intros e r; simpl.
  - intros [= <- <-]. split; [constructor|reflexivity].
  - destruct (is_slash c) eqn:Ec.
    + intros [= <- <-]. split; [constructor|reflexivity].
    + destruct (copy_element rest) as [e' r'].
      intros [= <- <-]. destruct (IH e' r' eq_refl) as [Hf ->].
      split; [|reflexivity]. constructor; [|assumption].
      now apply is_slash_false.
Qed.

Lemma backtrack_range (out : list ascii) (dotdot w0 : nat) :
  dotdot <= w0 ->
  dotdot <= backtrack out dotdot w0 <= w0.
Proof.
  induction w0 as [|w0 IH]; intros H; simpl; [lia|].
  destruct (Nat.ltb_spec dotdot (S w0)); simpl; [|lia].
  destruct (is_slash (nth (S w0) out slash)); simpl; [lia|].
  assert (dotdot <= w0) by lia. specialize (IH H1). lia.
Qed.

Lemma backtrack_stop (out : list ascii) (dotdot w0 : nat) :
  backtrack out dotdot w0 <= dotdot
  \/ nth (backtrack out dotdot w0) out slash = slash.
Proof.
  induction w0 as [|w0 IH]; simpl; [left; lia|].
  destruct (Nat.ltb_spec dotdot (S w0)); simpl; [|left; lia].
  destruct (is_slash (nth (S w0) out slash)) eqn:E; simpl; [|exact IH].
  right. now apply is_slash_true.
Qed.

End CleanFacts.

Section CleanInvariant.

Import GoPath.

Lemma Clean_inv_backtrack (rooted : bool) (out : list ascii) (dotdot : nat) :
  Clean_inv rooted out dotdot -> dotdot < length out ->
  Clean_inv rooted (take (backtrack out dotdot (length out - 1)) out) dotdot.
Proof.
  intros (Hn & Hl & Hr & Hu) Hlt.
  pose proof (backtrack_range out dotdot (length out - 1) ltac:(lia)) as Hrange.
  pose proof (backtrack_stop out dotdot (length out - 1)) as Hstop.
  set (w := backtrack out dotdot (length out - 1)) in *.
  assert (Hlen : length (take w out) = w) by (rewrite length_take; lia).
  refine (conj _ (conj _ (conj _ _))).
  - now apply no_double_slash_take.
  - intros HL. destruct (decide (w = dotdot)) as [E|E].
    + destruct rooted.
      * split; [reflexivity|]. destruct (Hr eq_refl) as [Hd Hh].
        rewrite E, Hd. destruct out as [|a out']; [discriminate|].
        simpl in Hh. now injection Hh as ->.
      * exfalso. destruct (Hu eq_refl) as [_ Hne]. apply Hne.
        now rewrite <- E.
    + exfalso. destruct Hstop as [Hle|Hsl]; [lia|].
      rewrite last_lookup, Hlen in HL.
      rewrite lookup_take_lt in HL by lia.
      apply (Hn (Init.Nat.pred w)); [exact HL|].
      replace (S (Init.Nat.pred w)) with w by lia.
      rewrite nth_lookup in Hsl.
      destruct (lookup_lt_is_Some_2 out w ltac:(lia)) as [x Hx].
      rewrite Hx in Hsl. simpl in Hsl. now subst x.
  - intros H. destruct (Hr H) as [Hd Hh]. split; [assumption|].
    destruct out as [|a out']; [discriminate|].
    destruct w as [|w']; [lia|]. exact Hh.
  - intros H. destruct (Hu H) as [_ Hne]. split; [lia|].
    rewrite take_take. now replace (dotdot `min` w) with dotdot by lia.
Qed.

Lemma Clean_inv_last (rooted : bool) (out : list ascii) (dotdot : nat) :
  Clean_inv rooted out dotdot ->
  (if rooted then negb (length out =? 1) else negb (length out =? 0)) = true ->
  last out <> Some slash.
Proof.
  intros (_ & Hl & _ & _) Hc HL. destruct (Hl HL) as [-> ->].
  discriminate.
Qed.

Lemma Clean_inv_dotdot (out : list ascii) (dotdot : nat) :
  Clean_inv false out dotdot ->
  Clean_inv false
    ((if 0 <? length out then out ++ [slash] else out) ++ [dot; dot])
    (length ((if 0 <? length out then out ++ [slash] else out) ++ [dot; dot])).
Proof.
  intros (Hn & Hl & Hr & Hu).
  assert (Hlast : last out <> Some slash) by (intros HL; now destruct (Hl HL)).
  set (out1 := if 0 <? length out then out ++ [slash] else out).
  assert (Hn1 : no_double_slash out1).
  { unfold out1. destruct (0 <? length out); [|assumption].
    apply no_double_slash_snoc; auto. }
  assert (Hd : forall l : list ascii, last (l ++ [dot; dot]) <> Some slash).
  { intros l. change [dot; dot] with ([dot] ++ [dot]).
    rewrite app_assoc, last_snoc. discriminate. }
  refine (conj _ (conj _ (conj _ _))).
  - change [dot; dot] with ([dot] ++ [dot]). rewrite app_assoc.
    apply no_double_slash_snoc; [|right; discriminate].
    apply no_double_slash_snoc; [assumption|right; discriminate].
  - intros HL. now apply Hd in HL.
  - discriminate.
  - intros _. split; [lia|]. rewrite firstn_all. apply Hd.
Qed.

Lemma Clean_inv_element (rooted : bool) (out : list ascii) (dotdot : nat)
      (c : ascii) (e : list ascii) :
  Clean_inv rooted out dotdot ->
  Forall (fun c => c <> slash) (c :: e) ->
  Clean_inv rooted
    ((if (rooted && negb (length out =? 1))
         || (negb rooted && negb (length out =? 0))
      then out ++ [slash] else out) ++ c :: e)
    dotdot.
Proof.
  intros Hinv He. pose proof Hinv as (Hn & Hl & Hr & Hu).
  set (out1 := if (rooted && negb (length out =? 1))
                  || (negb rooted && negb (length out =? 0))
               then out ++ [slash] else out).
  assert (Hn1 : no_double_slash out1).
  { unfold out1.
    destruct ((rooted && negb (length out =? 1))
              || (negb rooted && negb (length out =? 0))) eqn:Ec;
      [|assumption].
    apply no_double_slash_snoc; [assumption|]. left.
    apply (Clean_inv_last rooted out dotdot Hinv).
    destruct rooted; simpl in *; [now rewrite orb_false_r in Ec|exact Ec]. }
  assert (Hpre : exists t, out1 = out ++ t).
  { unfold out1.
    destruct ((rooted && negb (length out =? 1))
              || (negb rooted && negb (length out =? 0)));
      [now exists [slash]|exists []; now rewrite app_nil_r]. }
  destruct Hpre as [t Ht].
  refine (conj _ (conj _ (conj _ _))).
  - now apply no_double_slash_app_element.
  - intros HL. now apply last_app_element in HL.
  - intros H. destruct (Hr H) as [Hd Hh]. split; [assumption|].
    rewrite Ht. destruct out as [|a out']; [discriminate|]. exact Hh.
  - intros H. destruct (Hu H) as [Hle Hne]. split.
    + rewrite Ht, !length_app. lia.
    + rewrite Ht, <- app_assoc. now rewrite take_app_le.
Qed.

End CleanInvariant.

Section CleanLoop.

Import GoPath.

Lemma Clean_loop_nil (fuel : nat) (rooted : bool) (out : list ascii)
      (dotdot : nat) :
  Clean_loop fuel rooted [] out dotdot = out.
Proof. now destruct fuel. Qed.

Lemma copy_element_length (rest : list ascii) :
  length (snd (copy_element rest)) <= length rest.
Proof.
  induction rest as [|c rest IH]; simpl; [lia|].
  destruct (is_slash c); simpl; [lia|].
  destruct (copy_element rest); simpl in *. lia.
Qed.

(** The loop of [Clean] ends by itself: past the length of the unread
    input, more fuel changes nothing. *)
Lemma Clean_loop_fuel (f1 : nat) :
  forall f2 rooted rest out dotdot,
    length rest <= f1 -> length rest <= f2 ->
    Clean_loop f1 rooted rest out dotdot = Clean_loop f2 rooted rest out dotdot.
Proof.
  induction f1 as [|f1 IH]; intros f2 rooted rest out dotdot H1 H2.
  - destruct rest; [|simpl in H1; lia]. now rewrite !Clean_loop_nil.
  - destruct rest as [|c rest1]; [now rewrite !Clean_loop_nil|].
    destruct f2 as [|f2]; [simpl in H2; lia|].
    simpl in H1, H2. cbn [Clean_loop].
    destruct (is_slash c) eqn:Es; [apply IH; lia|].
    destruct (is_dot c && at_end_or_slash rest1); [apply IH; lia|].
    assert (Ht : length (tl rest1) <= length rest1)
      by (destruct rest1; simpl; lia).
    destruct (is_dot c && _).
    + destruct (dotdot <? length out); [apply IH; lia|].
      destruct (negb rooted); apply IH; lia.
    + pose proof (copy_element_length (c :: rest1)) as Hc.
      destruct (copy_element (c :: rest1)) as [e r] eqn:Ee.
      simpl in Ee. rewrite Es in Ee.
      pose proof (copy_element_length rest1) as Hc1.
      destruct (copy_element rest1) as [e1 r1]. injection Ee as <- <-.
      simpl in Hc1. apply IH; lia.
Qed.

Lemma Clean_loop_inv (fuel : nat) :
  forall rooted rest out dotdot,
    Clean_inv rooted out dotdot ->
    no_double_slash (Clean_loop fuel rooted rest out dotdot)
    /\ no_trailing_slash (Clean_loop fuel rooted rest out dotdot).
Proof.
  assert (Hbase : forall rooted out dotdot,
             Clean_inv rooted out dotdot ->
             no_double_slash out /\ no_trailing_slash out).
  { intros rooted out dotdot (Hn & Hl & _). split; [assumption|].
    intros HL. now destruct (Hl HL). }
  induction fuel as [|fuel IH]; intros rooted rest out dotdot Hinv;
    [now apply (Hbase rooted out dotdot)|].
  destruct rest as [|c rest1]; [now apply (Hbase rooted out dotdot)|].
  cbn [Clean_loop].
  destruct (is_slash c) eqn:Es; [now apply IH|].
  destruct (is_dot c && at_end_or_slash rest1); [now apply IH|].
  destruct (is_dot c && _).
  - destruct (Nat.ltb_spec dotdot (length out)).
    + apply IH. now apply Clean_inv_backtrack.
    + destruct rooted; cbn [negb]; [now apply IH|].
      apply IH. now apply (Clean_inv_dotdot out dotdot).
  - destruct (copy_element (c :: rest1)) as [e r] eqn:Ee.
    simpl in Ee. rewrite Es in Ee.
    pose proof (copy_element_spec rest1) as Hspec.
    destruct (copy_element rest1) as [e1 r1]. injection Ee as <- <-.
    destruct (Hspec e1 r1 eq_refl) as [Hf _].
    apply IH. apply Clean_inv_element; [assumption|].
    constructor; [now apply is_slash_false|assumption].
Qed.

(** The result of [Clean] has no two consecutive separators and ends
    with a separator only when it is ["/"]. *)
Lemma Clean_bytes_canonical (p : list ascii) :
  no_double_slash (Clean_bytes p) /\ no_trailing_slash (Clean_bytes p).
Proof.
  assert (Hdot : no_double_slash [dot] /\ no_trailing_slash [dot]).
  { split; [intros [|[|i]]; discriminate|discriminate]. }
  destruct p as [|c p']; [exact Hdot|].
  unfold Clean_bytes.
  set (out := if is_slash c then _ else _).
  assert (Hout : no_double_slash out /\ no_trailing_slash out).
  { unfold out. destruct (is_slash c); apply Clean_loop_inv.
    - refine (conj _ (conj _ (conj _ _)));
        [intros [|i]; discriminate|auto|auto|discriminate].
    - refine (conj _ (conj _ (conj _ _)));
        [intros [|i]; discriminate|discriminate|discriminate|].
      intros _. split; [simpl; lia|discriminate]. }
  destruct out; [exact Hdot|exact Hout].
Qed.

End CleanLoop.

Section JoinFacts.

Import GoPath.

Lemma at_end_or_slash_snoc (rest : list ascii) :
  at_end_or_slash (rest ++ [slash]) = at_end_or_slash rest.
Proof. now destruct rest. Qed.

Lemma copy_element_snoc (rest : list ascii) :
  copy_element (rest ++ [slash])
  = (fst (copy_element rest), snd (copy_element rest) ++ [slash]).
Proof.
  induction rest as [|c rest IH]; simpl; [reflexivity|].
  destruct (is_slash c); [reflexivity|].
  rewrite IH. now destruct (copy_element rest).
Qed.

(** A separator at the end of the input leaves the result of the loop
    unchanged. *)
Lemma Clean_loop_trailing (fuel : nat) :
  forall rooted rest out dotdot,
    length rest < fuel ->
    Clean_loop fuel rooted (rest ++ [slash]) out dotdot
    = Clean_loop fuel rooted rest out dotdot.
Proof.
  induction fuel as [|fuel IH]; intros rooted rest out dotdot Hlt; [lia|].
  destruct rest as [|c rest1].
  - simpl. now rewrite Clean_loop_nil.
  - simpl in Hlt. rewrite <- app_comm_cons. cbn [Clean_loop].
    destruct (is_slash c) eqn:Es; [apply IH; lia|].
    rewrite at_end_or_slash_snoc.
    destruct (is_dot c && at_end_or_slash rest1); [apply IH; lia|].
    destruct rest1 as [|c1 rest2].
    + simpl. rewrite andb_false_r. simpl. rewrite Es.
      apply (IH rooted []). simpl in *. lia.
    + rewrite <- app_comm_cons. rewrite at_end_or_slash_snoc.
      destruct (is_dot c && (is_dot c1 && at_end_or_slash rest2)).
      * cbn [tl]. simpl in Hlt.
        destruct (dotdot <? length out); [apply IH; lia|].
        destruct (negb rooted); apply IH; lia.
      * rewrite !app_comm_cons, copy_element_snoc.
        pose proof (copy_element_length (c :: c1 :: rest2)) as Hc.
        destruct (copy_element (c :: c1 :: rest2)) as [e r] eqn:Ee.
        cbn [fst snd] in *.
        assert (length r <= length (c1 :: rest2)).
        { simpl in Ee. rewrite Es in Ee.
          pose proof (copy_element_length (c1 :: rest2)) as Hc1.
          simpl in Hc1.
          destruct (is_slash c1).
          - injection Ee as <- <-. simpl. lia.
          - destruct (copy_element rest2). injection Ee as <- <-.
            simpl in *. lia. }
        apply IH. simpl in *. lia.
Qed.

Lemma Clean_bytes_trailing (p : list ascii) :
  p <> [] -> Clean_bytes (p ++ [slash]) = Clean_bytes p.
Proof.
  destruct p as [|c p']; [congruence|]. intros _.
  rewrite <- app_comm_cons. unfold Clean_bytes.
  destruct (is_slash c).
  - rewrite Clean_loop_trailing by (rewrite length_app; simpl; lia).
    rewrite (Clean_loop_fuel _ (length p')); [reflexivity| |lia].
    rewrite length_app. lia.
  - rewrite app_comm_cons.
    rewrite Clean_loop_trailing by (rewrite length_app; simpl; lia).
    rewrite (Clean_loop_fuel _ (length (c :: p'))); [reflexivity| |lia].
    rewrite length_app. lia.
Qed.

Lemma list_ascii_of_string_append (s t : string) :
  list_ascii_of_string (s +:+ t)
  = list_ascii_of_string s ++ list_ascii_of_string t.
Proof. induction s as [|a s IH]; simpl; [reflexivity|]. now rewrite IH. Qed.

Lemma append_empty_r (s : string) : s +:+ "" = s.
Proof.
  induction s as [|a s IH]; [reflexivity|].
  change (String a (s +:+ "") = String a s). now rewrite IH.
Qed.

Lemma Clean_trailing (s : string) :
  s <> "" -> Clean (s +:+ "/") = Clean s.
Proof.
  intros Hs. unfold Clean. rewrite list_ascii_of_string_append. simpl.
  rewrite Clean_bytes_trailing; [reflexivity|].
  destruct s; [congruence|discriminate].
Qed.

Lemma Clean_nonempty (s : string) : Clean s <> "".
Proof.
  unfold Clean, Clean_bytes.
  destruct (list_ascii_of_string s) as [|c p]; [discriminate|].
  destruct (if is_slash c then _ else _); discriminate.
Qed.

(** [Join] of two elements: empty elements are skipped, and what is
    left is joined with one separator and cleaned. *)
Lemma Join_two (root p : string) :
  Join [root; p]
  = if String.eqb root "" then (if String.eqb p "" then "" else Clean p)
    else Clean ((root +:+ "/") +:+ p).
Proof.
  unfold Join. destruct root as [|a root]; simpl.
  - destruct p as [|c p]; simpl; reflexivity.
  - reflexivity.
Qed.

Lemma Join_empty_path (root : string) :
  Join [root; ""] = if String.eqb root "" then "" else Clean root.
Proof.
  rewrite Join_two. destruct (String.eqb_spec root ""); [reflexivity|].
  rewrite append_empty_r. now apply Clean_trailing.
Qed.

End JoinFacts.

(** C9 (as stated, at the root prefix [a/]): resolving the empty logical
    path does not give back the root prefix. *)
Lemma Join_empty_path_not_root : GoPath.Join ["a/"; ""] <> "a/".
Proof. vm_compute. discriminate. Qed.

(** C9 (amended): the backend key is [path.Join] of the root prefix and
    the logical path, a function of the two strings alone.  Empty
    elements are skipped and what is left is joined with one separator
    and cleaned, so the key has no two consecutive separators and no
    trailing separator (unless it is ["/"]).  The empty logical path
    resolves to the empty key under the empty root and to the cleaned
    root otherwise, which is the root itself exactly when the root is
    empty or already clean. *)
Theorem Join_resolves (root p : string) :
  canonical_separators (GoPath.Join [root; p])
  /\ GoPath.Join [root; p]
     = (if String.eqb root ""
        then (if String.eqb p "" then "" else GoPath.Clean p)
        else GoPath.Clean ((root +:+ "/") +:+ p))
  /\ GoPath.Join [root; ""]
     = (if String.eqb root "" then "" else GoPath.Clean root)
  /\ (GoPath.Join [root; ""] = root <-> root = "" \/ GoPath.Clean root = root).
Proof.
  assert (Hclean : forall s, canonical_separators (GoPath.Clean s)).
  { intros s. unfold canonical_separators, GoPath.Clean.
    rewrite list_ascii_of_string_of_list_ascii.
    apply Clean_bytes_canonical. }
  assert (Hempty : canonical_separators "").
  { split; [intros i Hi; destruct i; discriminate|discriminate]. }
  refine (conj _ (conj (Join_two root p) (conj (Join_empty_path root) _))).
  - rewrite Join_two.
    destruct (String.eqb root ""); [destruct (String.eqb p "")|]; auto.
  - rewrite Join_empty_path.
    destruct (String.eqb_spec root "") as [->|Hne].
    + split; auto.
    + split; [auto|]. intros [E|E]; [contradiction|exact E].
Qed.

(* ===================================================================== *)
(** ** Worked examples *)
(* ===================================================================== *)

Example Clean_collapses : GoPath.Clean "a//c" = "a/c".
Proof. reflexivity. Qed.

Example Clean_rooted_dotdot : GoPath.Clean "/../a/b/../././/c" = "/a/c".
Proof. reflexivity. Qed.

Example Clean_leading_dotdot : GoPath.Clean "abc/../../././../def" = "../../def".
Proof. reflexivity. Qed.

Example Clean_to_dot : GoPath.Clean "abc/def/../.." = ".".
Proof. reflexivity. Qed.

Example Clean_empty : GoPath.Clean "" = ".".
Proof. reflexivity. Qed.

Example Clean_to_root : GoPath.Clean "/abc/def/../../.." = "/".
Proof. reflexivity. Qed.

Example Clean_dotted_names : GoPath.Clean "a/b/.x/..y/...." = "a/b/.x/..y/....".
Proof. reflexivity. Qed.

Example Join_dotdot : GoPath.Join ["a/b"; "../../../xyz"] = "../xyz".
Proof. reflexivity. Qed.

Example Join_both_empty : GoPath.Join [""; ""] = "".
Proof. reflexivity. Qed.

Example Join_empty_root : GoPath.Join [""; "dir"] = "dir".
Proof. reflexivity. Qed.

Example Join_nested : GoPath.Join ["a"; "b/c"] = "a/b/c".
Proof. reflexivity. Qed.

Example ReadDir_of_a_file :
  ReadDir (New None "bucket" "") (bucket_of [("dir", [x41])]) "dir"
  = Ret (None, Some ErrNotFound).
Proof. vm_compute. reflexivity. Qed.

Example ReadDir_missing :
  ReadDir (New None "bucket" "") (bucket_of [("dir/a.txt", [x41])]) "missing"
  = Ret (None, Some ErrNotFound).
Proof. vm_compute. reflexivity. Qed.

Example ReadDir_only_nested :
  ReadDir (New None "bucket" "") (bucket_of [("dir/sub/c.txt", [x41])]) "dir"
  = Ret (Some [], None).
Proof. vm_compute. reflexivity. Qed.

Example ReadDir_empty_root_and_dir :
  ReadDir (New None "bucket" "") (bucket_of [("a.txt", [x41])]) ""
  = Ret (Some [ {| name := ".txt" |} ], None).
Proof. vm_compute. reflexivity. Qed.

Example Open_without_client :
  Open (New (Some (ErrClient "no credentials")) "bucket" "root")
       (bucket_of []) "x.txt"
  = Panic.
Proof. reflexivity. Qed.

Example Create_without_client :
  Create (New (Some (ErrClient "no credentials")) "bucket" "root") "x.txt"
  = Ret (None, Some (ErrClient "no credentials")).
Proof. reflexivity. Qed.

(* ===================================================================== *)
(** ** Further properties of the directory listing *)
(* ===================================================================== *)

Section ListingOutcomes.

Lemma prefix_append (p t : string) : String.prefix p (p +:+ t) = true.
Proof.
  induction p as [|a p IH]; [now destruct t|].
  change (String.prefix (String a p) (String a (p +:+ t)) = true).
  simpl. destruct (ascii_dec a a); [exact IH|congruence].
Qed.

Lemma attrs_names_take (k : nat) (l : list string) :
  List.map storage.Name (take k (List.map Build_ObjectAttrs l)) = take k l.
Proof.
  revert k; induction l as [|x l IH]; intros [|k]; simpl; try reflexivity.
  now rewrite IH.
Qed.

(** The keys a listing returns before it ends or fails. *)
Lemma Objects_keys (b : Bucket) (P : string) :
  List.map storage.Name (items (Objects b P)) =
    match listErr (faults b) P with
    | Some (k, _) => take k (List.filter (String.prefix P) (names b))
    | None => List.filter (String.prefix P) (names b)
    end.
Proof.
  unfold Objects. destruct (listErr (faults b) P) as [[k e]|]; simpl.
  - apply attrs_names_take.
  - rewrite List.map_map. simpl. apply List.map_id.
Qed.

Lemma Objects_final (b : Bucket) (P : string) :
  final (Objects b P) =
    match listErr (faults b) P with
    | Some (_, e) => Storage e
    | None => Done
    end.
Proof. unfold Objects. now destruct (listErr (faults b) P) as [[k e]|]. Qed.

Lemma child_names_no_separator (n : nat) (keys : list string) (x : string) :
  x ∈ child_names n keys -> GoStrings.Count x GoPath.slash = 0.
Proof.
  unfold child_names. rewrite list_elem_of_In, filter_In.
  intros [_ H]. unfold no_separator in H. now apply Nat.eqb_eq in H.
Qed.

Lemma child_names_intro (n : nat) (keys : list string) (k : string) :
  k ∈ keys -> GoStrings.Count (rel_name n k) GoPath.slash = 0 ->
  rel_name n k ∈ child_names n keys.
Proof.
  intros Hk Hc. unfold child_names.
  rewrite list_elem_of_In, filter_In. split.
  - apply in_map. now apply list_elem_of_In.
  - unfold no_separator. now apply Nat.eqb_eq.
Qed.

Lemma entries_elem (l : list string) (en : dirEntry) :
  en ∈ List.map Build_dirEntry l <-> name en ∈ l.
Proof.
  rewrite !list_elem_of_In, in_map_iff. split.
  - now intros (x & <- & H).
  - intros H. exists (name en). split; [now destruct en|assumption].
Qed.

(** A successful listing, in terms of the bucket. *)
Lemma ReadDir_success (bn root : string) (b : Bucket) (dir : string)
      (entries : list dirEntry) :
  listErr (faults b) (GoPath.Join [root; dir]) = None ->
  ReadDir (New None bn root) b dir = Ret (Some entries, None) ->
  entries = List.map Build_dirEntry
              (GoSort.Sort
                 (child_names (String.length (GoPath.Join [root; dir]))
                    (List.filter (String.prefix (GoPath.Join [root; dir]))
                                 (names b)))).
Proof.
  intros Hf. rewrite ReadDir_unfold. unfold ReadDir_result.
  rewrite Objects_keys, Objects_final, Hf.
  destruct (bool_decide _); [discriminate|].
  rewrite bool_decide_eq_true_2 by reflexivity.
  destruct (List.filter _ _) as [|k0 ks]; [discriminate|].
  now intros [= <-].
Qed.

(** A listing that succeeds, from what the bucket holds. *)
Lemma ReadDir_succeeds (bn root : string) (b : Bucket) (dir : string)
      (k0 : string) :
  listErr (faults b) (GoPath.Join [root; dir]) = None ->
  objects b !! GoPath.Join [root; dir] = None ->
  is_Some (objects b !! k0) ->
  String.prefix (GoPath.Join [root; dir]) k0 = true ->
  ReadDir (New None bn root) b dir
  = Ret (Some (List.map Build_dirEntry
                 (GoSort.Sort
                    (child_names (String.length (GoPath.Join [root; dir]))
                       (List.filter (String.prefix (GoPath.Join [root; dir]))
                                    (names b))))),
         None).
Proof.
  intros Hf Hno Hk0 Hp0. rewrite ReadDir_unfold. unfold ReadDir_result.
  rewrite Objects_keys, Objects_final, Hf.
  set (P := GoPath.Join [root; dir]) in *.
  rewrite bool_decide_eq_false_2.
  2:{ rewrite list_elem_of_In, filter_In, names_spec. intros [[c Hc] _].
      congruence. }
  rewrite bool_decide_eq_true_2 by reflexivity.
  destruct (List.filter (String.prefix P) (names b)) as [|k ks] eqn:E;
    [|reflexivity].
  exfalso. assert (Hin : In k0 (List.filter (String.prefix P) (names b))).
  { apply filter_In. split; [now apply names_spec|assumption]. }
  rewrite E in Hin. destruct Hin.
Qed.

End ListingOutcomes.

(** X1: on a file system whose client was created, [ReadDir] always
    returns, and in one of three ways: [ErrNotFound] with no listing, a
    listing with no error, or, when the listing of the backend fails with
    [e], the error [e] with no listing. *)
Theorem ReadDir_outcomes (bn root : string) (b : Bucket) (dir : string) :
  ReadDir (New None bn root) b dir = Ret (None, Some ErrNotFound)
  \/ (exists entries, ReadDir (New None bn root) b dir = Ret (Some entries, None))
  \/ (exists k e,
         listErr (faults b) (GoPath.Join [root; dir]) = Some (k, e)
         /\ ReadDir (New None bn root) b dir = Ret (None, Some (Storage e))).
Proof.
  rewrite ReadDir_unfold. unfold ReadDir_result.
  rewrite Objects_final.
  destruct (bool_decide _); [now left|].
  destruct (listErr (faults b) (GoPath.Join [root; dir])) as [[k e]|].
  - rewrite bool_decide_eq_false_2 by discriminate. right; right; eauto.
  - rewrite bool_decide_eq_true_2 by reflexivity.
    destruct (List.map _ _); [now left|right; left; eauto].
Qed.

(** X2: when the listing of the resolved prefix fails with [e] after [k]
    keys, [ReadDir] returns no listing: [ErrNotFound] if one of those [k]
    keys is the resolved prefix itself, and the error [e] otherwise,
    whatever was listed before the failure. *)
Theorem ReadDir_listing_failure (bn root : string) (b : Bucket) (dir : string)
        (k : nat) (e : storage_error) :
  listErr (faults b) (GoPath.Join [root; dir]) = Some (k, e) ->
  ReadDir (New None bn root) b dir
  = if bool_decide
         (GoPath.Join [root; dir]
          ∈ take k (List.filter (String.prefix (GoPath.Join [root; dir]))
                                (names b)))
    then Ret (None, Some ErrNotFound)
    else Ret (None, Some (Storage e)).
Proof.
  intros Hf. rewrite ReadDir_unfold. unfold ReadDir_result.
  rewrite Objects_keys, Objects_final, Hf.
  destruct (bool_decide _); [reflexivity|].
  now rewrite bool_decide_eq_false_2 by discriminate.
Qed.

Lemma ReadDir_listing_failure_witness :
  ReadDir (New None "bucket" "")
          (failing_listing (bucket_of [("dir/a.txt", [x41]); ("dir/b.txt", [])])
                           "dir" 1 (ErrBackend "timeout")) "dir"
  = Ret (None, Some (Storage (ErrBackend "timeout"))).
Proof.
  exact (ReadDir_listing_failure "bucket" ""
           (failing_listing (bucket_of [("dir/a.txt", [x41]); ("dir/b.txt", [])])
                            "dir" 1 (ErrBackend "timeout"))
           "dir" 1 (ErrBackend "timeout") eq_refl).
Defined.

Section ListingContents.

Lemma append_assoc (s t u : string) : (s +:+ t) +:+ u = s +:+ (t +:+ u).
Proof.
  induction s as [|a s IH]; [reflexivity|].
  change (String a ((s +:+ t) +:+ u) = String a (s +:+ (t +:+ u))).
  now rewrite IH.
Qed.

Lemma prefix_child (P nm : string) :
  String.prefix P ((P +:+ "/") +:+ nm) = true.
Proof. rewrite append_assoc. apply prefix_append. Qed.

Lemma child_names_nil (n : nat) (keys : list string) :
  Forall (fun k => 0 < GoStrings.Count (rel_name n k) GoPath.slash) keys ->
  child_names n keys = [].
Proof.
  induction 1 as [|k ks Hk Hks IH]; [reflexivity|].
  unfold child_names in *. cbn [List.map List.filter]. rewrite IH.
  unfold no_separator.
  destruct (GoStrings.Count (rel_name n k) GoPath.slash); [lia|reflexivity].
Qed.

Lemma bucket_of_lookup (l : list (string * list byte)) (k : string) :
  is_Some (objects (bucket_of l) !! k) -> k ∈ l.*1.
Proof.
  intros [c Hc]. apply elem_of_list_to_map_2 in Hc.
  apply list_elem_of_fmap. now exists (k, c).
Qed.

Lemma two_files_separated (c1 c2 : list byte) (k : string) :
  is_Some (objects (bucket_of [("dir/a", c1); ("dir/b", c2)]) !! k) ->
  String.prefix "dir" k = true -> String.prefix ("dir" +:+ "/") k = true.
Proof.
  intros Hk _. apply bucket_of_lookup in Hk. simpl in Hk.
  apply elem_of_cons in Hk as [->|Hk]; [reflexivity|].
  apply elem_of_cons in Hk as [->|Hk]; [reflexivity|].
  inversion Hk.
Qed.

End ListingContents.

(** X3: the names of every listing [ReadDir] returns are in ascending
    byte order. *)
Theorem ReadDir_names_ascending (fs : fileSystem) (b : Bucket) (dir : string)
        (entries : list dirEntry) (e : option error) :
  ReadDir fs b dir = Ret (Some entries, e) ->
  Sorted ascending (List.map Name entries).
Proof.
  unfold ReadDir. destruct (bucket fs); [|discriminate].
  destruct (ReadDir_loop _ _ _ _ _ _) as [nms found| |]; try discriminate.
  destruct (negb found); [discriminate|]. intros [= <- <-].
  rewrite entries_names. apply Sort_Sorted.
Qed.

Lemma ReadDir_names_ascending_witness :
  Sorted ascending
         (List.map Name [ {| name := "a.txt" |}; {| name := "b" |};
                          {| name := "b.txt" |} ]).
Proof.
  apply (ReadDir_names_ascending (New None "bucket" "")
           (bucket_of [("dir/b.txt", []); ("dirab", []); ("dir/a.txt", [])])
           "dir" _ None).
  vm_compute. reflexivity.
Defined.

(** X4: when the listing does not fail and every object whose name has
    the resolved prefix continues it with a separator, the names of the
    listing [ReadDir] returns are pairwise distinct. *)
Theorem ReadDir_names_distinct (bn root : string) (b : Bucket) (dir : string)
        (entries : list dirEntry) :
  listErr (faults b) (GoPath.Join [root; dir]) = None ->
  (forall k, is_Some (objects b !! k) ->
             String.prefix (GoPath.Join [root; dir]) k = true ->
             String.prefix (GoPath.Join [root; dir] +:+ "/") k = true) ->
  ReadDir (New None bn root) b dir = Ret (Some entries, None) ->
  NoDup (List.map Name entries).
Proof.
  intros Hf Hsep HR. rewrite (ReadDir_success _ _ _ _ _ Hf HR).
  rewrite entries_names, Sort_Permutation.
  apply child_names_NoDup; [apply filter_NoDup, names_NoDup|].
  apply List.Forall_forall. intros k Hk.
  apply filter_In in Hk as [Hk Hp]. apply Hsep; [|assumption].
  now apply names_spec.
Qed.

Lemma ReadDir_names_distinct_witness :
  NoDup (List.map Name [ {| name := "a" |}; {| name := "b" |} ]).
Proof.
  apply (ReadDir_names_distinct "bucket" ""
           (bucket_of [("dir/a", [x41]); ("dir/b", [])]) "dir");
    [reflexivity|apply two_files_separated|vm_compute; reflexivity].
Defined.

(** X5: when the listing does not fail and no object is named by the
    resolved prefix [P] itself, every object named [P/nm] with [nm] free
    of separators is listed: [ReadDir] succeeds and [nm] is the name of
    one of its entries. *)
Theorem ReadDir_lists_children (bn root : string) (b : Bucket)
        (dir nm : string) :
  listErr (faults b) (GoPath.Join [root; dir]) = None ->
  objects b !! GoPath.Join [root; dir] = None ->
  is_Some (objects b !! ((GoPath.Join [root; dir] +:+ "/") +:+ nm)) ->
  GoStrings.Count nm GoPath.slash = 0 ->
  exists entries,
    ReadDir (New None bn root) b dir = Ret (Some entries, None)
    /\ {| name := nm |} ∈ entries.
Proof.
  intros Hf Hno Hk Hc. set (P := GoPath.Join [root; dir]) in *.
  eexists. split.
  - apply (ReadDir_succeeds bn root b dir ((P +:+ "/") +:+ nm));
      [assumption..|apply prefix_child].
  - apply entries_elem. simpl. rewrite list_elem_of_In, Sort_In,
      <- list_elem_of_In.
    rewrite <- (rel_name_separated P nm).
    apply child_names_intro; [|now rewrite rel_name_separated].
    rewrite list_elem_of_In, filter_In, names_spec.
    split; [assumption|apply prefix_child].
Qed.

Lemma ReadDir_lists_children_witness :
  exists entries,
    ReadDir (New None "bucket" "root")
            (bucket_of [("root/dir/a.txt", [x41]); ("root/dir/sub/c", [])])
            "dir"
    = Ret (Some entries, None)
    /\ {| name := "a.txt" |} ∈ entries.
Proof.
  apply (ReadDir_lists_children "bucket" "root"
           (bucket_of [("root/dir/a.txt", [x41]); ("root/dir/sub/c", [])])
           "dir" "a.txt"); [reflexivity|reflexivity| |reflexivity].
  vm_compute. eexists. reflexivity.
Defined.

(** X6: when the listing does not fail and every object whose name has
    the resolved prefix [P] continues it with a separator, every entry of
    the listing names an object: [P/name] is in the bucket, and the name
    has no separator. *)
Theorem ReadDir_entries_are_objects (bn root : string) (b : Bucket)
        (dir : string) (entries : list dirEntry) (en : dirEntry) :
  listErr (faults b) (GoPath.Join [root; dir]) = None ->
  (forall k, is_Some (objects b !! k) ->
             String.prefix (GoPath.Join [root; dir]) k = true ->
             String.prefix (GoPath.Join [root; dir] +:+ "/") k = true) ->
  ReadDir (New None bn root) b dir = Ret (Some entries, None) ->
  en ∈ entries ->
  is_Some (objects b !! ((GoPath.Join [root; dir] +:+ "/") +:+ name en))
  /\ GoStrings.Count (name en) GoPath.slash = 0.
Proof.
  intros Hf Hsep HR Hen. set (P := GoPath.Join [root; dir]) in *.
  rewrite (ReadDir_success _ _ _ _ _ Hf HR) in Hen.
  apply entries_elem in Hen.
  rewrite list_elem_of_In, Sort_In, <- list_elem_of_In in Hen.
  split; [|now apply child_names_no_separator in Hen].
  apply child_names_elem in Hen as (k & Hk & E).
  rewrite list_elem_of_In, filter_In, names_spec in Hk.
  destruct Hk as [Hs Hp].
  destruct (prefix_append_inv _ _ (Hsep k Hs Hp)) as [t ->].
  fold P in E. rewrite rel_name_separated in E. now rewrite <- E.
Qed.

Lemma ReadDir_entries_are_objects_witness :
  is_Some (objects (bucket_of [("dir/a", [x41]); ("dir/b", [])])
           !! ((GoPath.Join [""; "dir"] +:+ "/") +:+ name {| name := "b" |}))
  /\ GoStrings.Count (name {| name := "b" |}) GoPath.slash = 0.
Proof.
  apply (ReadDir_entries_are_objects "bucket" ""
           (bucket_of [("dir/a", [x41]); ("dir/b", [])]) "dir"
           [ {| name := "a" |}; {| name := "b" |} ]);
    [reflexivity|apply two_files_separated|vm_compute; reflexivity|].
  apply list_elem_of_further, list_elem_of_here.
Defined.

(** X7: a directory that holds objects only further down lists as empty:
    when the listing does not fail, no object is named by the resolved
    prefix, some object name has it, and every such name has a separator
    after the bytes the loop strips, [ReadDir] returns the empty listing
    and no error. *)
Theorem ReadDir_nested_only (bn root : string) (b : Bucket) (dir k0 : string) :
  listErr (faults b) (GoPath.Join [root; dir]) = None ->
  objects b !! GoPath.Join [root; dir] = None ->
  is_Some (objects b !! k0) ->
  String.prefix (GoPath.Join [root; dir]) k0 = true ->
  (forall k, is_Some (objects b !! k) ->
             String.prefix (GoPath.Join [root; dir]) k = true ->
             0 < GoStrings.Count
                   (rel_name (String.length (GoPath.Join [root; dir])) k)
                   GoPath.slash) ->
  ReadDir (New None bn root) b dir = Ret (Some [], None).
Proof.
  intros Hf Hno Hk0 Hp0 Hdeep.
  rewrite (ReadDir_succeeds bn root b dir k0) by assumption.
  rewrite child_names_nil; [reflexivity|].
  apply List.Forall_forall. intros k Hk.
  apply filter_In in Hk as [Hk Hp]. apply Hdeep; [|assumption].
  now apply names_spec.
Qed.

Lemma ReadDir_nested_only_witness :
  ReadDir (New None "bucket" "")
          (bucket_of [("dir/sub/c.txt", [x41])]) "dir"
  = Ret (Some [], None).
Proof.
  apply (ReadDir_nested_only "bucket" "" _ "dir" "dir/sub/c.txt");
    [reflexivity|reflexivity|vm_compute; eexists; reflexivity|reflexivity|].
  intros k Hk _. apply bucket_of_lookup in Hk. simpl in Hk.
  apply elem_of_cons in Hk as [->|Hk]; [vm_compute; lia|inversion Hk].
Defined.

(* ===================================================================== *)
(** ** Further properties of the streams *)
(* ===================================================================== *)

Section WriterFacts.

Lemma Append_writer_key (bn root p : string) (b : Bucket) (w : Writer) :
  Append (New None bn root) b p = Ret (Some w, None) ->
  wkey w = GoPath.Join [root; p].
Proof.
  unfold Append. rewrite Open_unfold, Create_unfold.
  destruct (NewReader b (GoPath.Join [root; p])) as [rd err].
  destruct (bool_decide (err = Some (Storage ErrObjectNotExist))).
  - simpl. now intros [= <-].
  - destruct (bool_decide (err <> None) && bool_decide (err <> Some ErrNotFound));
      [discriminate|].
    unfold Copy_file. cbn [r]. destruct rd as [rd|]; [|discriminate].
    unfold GoIo.Copy.
    destruct (rdata rd) as [|x l].
    + destruct (rerr rd); [discriminate|]. now intros [= <-].
    + unfold Write. cbn [wkey NewWriter].
      destruct (writeErr (faults b) (GoPath.Join [root; p])); [discriminate|].
      destruct (rerr rd); [discriminate|]. now intros [= <-].
Qed.

Lemma write_close_frame (b : Bucket) (w : Writer) (c : list byte)
      (e : option error) (b' : Bucket) (k : string) :
  write_close b w c = (e, b') -> k <> wkey w ->
  objects b' !! k = objects b !! k.
Proof.
  unfold write_close, Write, Close.
  destruct (writeErr (faults b) (wkey w)); [now intros [= _ <-]|].
  cbn [wkey]. destruct (closeErr (faults b) (wkey w)); [now intros [= _ <-]|].
  intros [= _ <-] Hk. simpl. now apply lookup_insert_ne.
Qed.

Lemma read_to_end_reader (fuel : nat) :
  forall (n : nat) (rd : Reader) (acc : list byte),
    0 < n -> length (rdata rd) < fuel ->
    read_to_end fuel n {| r := Some rd |} acc
    = Some (Ret (acc ++ rdata rd, rerr rd)).
Proof.
  induction fuel as [|fuel IH]; intros n rd acc Hn Hlen; [lia|].
  destruct n as [|n]; [lia|].
  destruct rd as [data re]. cbn [rdata rerr] in *.
  destruct data as [|x data].
  - simpl. rewrite app_nil_r. now destruct re.
  - cbn [read_to_end file_Read r Reader_Read rdata rerr].
    rewrite IH; [|lia|].
    + cbn [rdata rerr]. rewrite <- app_assoc.
      now rewrite (take_drop (S n) (x :: data)).
    + cbn [rdata]. rewrite length_drop. simpl in *. lia.
Qed.

End WriterFacts.

(** X8: when the storage client could not be created, [New] keeps the
    error and no bucket handle.  [Create] then returns that error with no
    writer, while [Open], [Append] and [ReadDir], which do not look at
    the stored error, call a method of the nil bucket handle and panic. *)
Theorem calls_without_client (e : error) (bn root : string) (b : Bucket)
        (p : string) :
  Create (New (Some e) bn root) p = Ret (None, Some e)
  /\ Open (New (Some e) bn root) b p = Panic
  /\ Append (New (Some e) bn root) b p = Panic
  /\ ReadDir (New (Some e) bn root) b p = Panic.
Proof. repeat split. Qed.

(** X9: on a backend that fails no request for the object, writing [c]
    through [Create] and closing stores [c] at the resolved key whatever
    was stored there before, and [Open] then reads exactly [c] to the
    end. *)
Theorem create_open_roundtrip (bn root p : string) (b : Bucket)
        (c : list byte) :
  fault_free b (GoPath.Join [root; p]) ->
  exists w b' f,
    Create (New None bn root) p = Ret (Some w, None)
    /\ write_close b w c = (None, b')
    /\ objects b' !! GoPath.Join [root; p] = Some c
    /\ Open (New None bn root) b' p = Ret (Some f, None)
    /\ ReadAll f = Ret (c, None).
Proof.
  intros (Hn & Hr & Hw & Hc). set (key := GoPath.Join [root; p]) in *.
  exists (NewWriter key),
    {| objects := <[key := c]> (objects b); faults := faults b |},
    {| r := Some {| rdata := c; rerr := None |} |}.
  split; [reflexivity|].
  split; [now apply (write_close_stores b (NewWriter key) c)|].
  split; [apply lookup_insert_eq|].
  split; [|reflexivity].
  rewrite Open_unfold. fold key.
  rewrite (NewReader_present _ key c); [reflexivity| |assumption..].
  apply lookup_insert_eq.
Qed.

Lemma create_open_roundtrip_witness :
  exists w b' f,
    Create (New None "bucket" "root") "x.txt" = Ret (Some w, None)
    /\ write_close (bucket_of [("root/x.txt", [x30; x31])]) w [x41] = (None, b')
    /\ objects b' !! GoPath.Join ["root"; "x.txt"] = Some [x41]
    /\ Open (New None "bucket" "root") b' "x.txt" = Ret (Some f, None)
    /\ ReadAll f = Ret ([x41], None).
Proof.
  apply (create_open_roundtrip "bucket" "root" "x.txt"
           (bucket_of [("root/x.txt", [x30; x31])]) [x41]).
  repeat split; reflexivity.
Defined.

(** X10: closing a writer that [Create] or [Append] returned for a path
    changes no object other than the one at the resolved key of that
    path, whether the write and the close succeed or fail. *)
Theorem writer_stores_only_its_key (bn root p : string) (b0 b : Bucket)
        (w : Writer) (c : list byte) (e : option error) (b' : Bucket) :
  Create (New None bn root) p = Ret (Some w, None)
  \/ Append (New None bn root) b0 p = Ret (Some w, None) ->
  write_close b w c = (e, b') ->
  forall k, k <> GoPath.Join [root; p] -> objects b' !! k = objects b !! k.
Proof.
  intros Hw Hwc k Hk. apply (write_close_frame b w c e b' k Hwc).
  destruct Hw as [Hw|Hw].
  - rewrite Create_unfold in Hw. injection Hw as <-. exact Hk.
  - now rewrite (Append_writer_key _ _ _ _ _ Hw).
Qed.

Lemma writer_stores_only_its_key_witness :
  objects {| objects := <["root/x.txt" := [x41; x42]]>
                          (objects (bucket_of [("root/x.txt", [x41]);
                                               ("root/y.txt", [x43])]));
             faults := no_faults |} !! "root/y.txt"
  = objects (bucket_of [("root/x.txt", [x41]); ("root/y.txt", [x43])])
      !! "root/y.txt".
Proof.
  apply (writer_stores_only_its_key "bucket" "root" "x.txt"
           (bucket_of [("root/x.txt", [x41]); ("root/y.txt", [x43])])
           (bucket_of [("root/x.txt", [x41]); ("root/y.txt", [x43])])
           {| wkey := "root/x.txt"; wbuf := [x41] |} [x42] None).
  - right. reflexivity.
  - reflexivity.
  - discriminate.
Defined.

(** X11: where an object with content [c0] exists and the backend fails
    no request for it, [Append] returns a writer that already holds [c0],
    and writing [c] to it and closing stores [c0 ++ c]. *)
Theorem Append_existing_object (bn root p : string) (b : Bucket)
        (c0 c : list byte) :
  objects b !! GoPath.Join [root; p] = Some c0 ->
  fault_free b (GoPath.Join [root; p]) ->
  exists w b',
    Append (New None bn root) b p = Ret (Some w, None)
    /\ wbuf w = c0
    /\ write_close b w c = (None, b')
    /\ objects b' !! GoPath.Join [root; p] = Some (c0 ++ c).
Proof.
  intros Ho (Hn & Hr & Hw & Hc). set (key := GoPath.Join [root; p]) in *.
  exists {| wkey := key; wbuf := c0 |},
    {| objects := <[key := c0 ++ c]> (objects b); faults := faults b |}.
  split.
  { unfold Append. rewrite Open_unfold, Create_unfold. fold key.
    rewrite (NewReader_present _ key c0) by assumption.
    simpl. unfold GoIo.Copy, Write; simpl.
    destruct c0 as [|x c0]; [reflexivity|]. fold key. now rewrite Hw. }
  split; [reflexivity|].
  split; [now apply (write_close_stores b {| wkey := key; wbuf := c0 |} c)|].
  apply lookup_insert_eq.
Qed.

Lemma Append_existing_object_witness :
  exists w b',
    Append (New None "bucket" "root")
           (bucket_of [("root/log.txt", [x41; x42])]) "log.txt"
    = Ret (Some w, None)
    /\ wbuf w = [x41; x42]
    /\ write_close (bucket_of [("root/log.txt", [x41; x42])]) w [x43]
       = (None, b')
    /\ objects b' !! GoPath.Join ["root"; "log.txt"] = Some ([x41; x42] ++ [x43]).
Proof.
  apply (Append_existing_object "bucket" "root" "log.txt"
           (bucket_of [("root/log.txt", [x41; x42])]) [x41; x42] [x43]);
    [reflexivity|repeat split; reflexivity].
Defined.

(** X12: where an object exists and can be opened, a read that fails
    while [Append] copies the object makes [Append] return the error of
    the read and no writer, when the writes of the copy do not fail. *)
Theorem Append_copy_failure (bn root p : string) (b : Bucket)
        (c0 : list byte) (k : nat) (e : storage_error) :
  objects b !! GoPath.Join [root; p] = Some c0 ->
  newReaderErr (faults b) (GoPath.Join [root; p]) = None ->
  readErr (faults b) (GoPath.Join [root; p]) = Some (k, e) ->
  writeErr (faults b) (GoPath.Join [root; p]) = None ->
  Append (New None bn root) b p = Ret (None, Some (Storage e)).
Proof.
  intros Ho Hn Hr Hw. set (key := GoPath.Join [root; p]) in *.
  unfold Append. rewrite Open_unfold, Create_unfold.
  fold key. unfold NewReader. rewrite Hn, Ho, Hr. simpl.
  unfold GoIo.Copy, Write; simpl.
  destruct (take k c0); [reflexivity|]. fold key. now rewrite Hw.
Qed.

Lemma Append_copy_failure_witness :
  Append (New None "bucket" "root")
         (failing_read (bucket_of [("root/x.txt", [x41; x42])]) "root/x.txt"
                       1 (ErrBackend "connection reset")) "x.txt"
  = Ret (None, Some (Storage (ErrBackend "connection reset"))).
Proof.
  apply (Append_copy_failure "bucket" "root" "x.txt"
           (failing_read (bucket_of [("root/x.txt", [x41; x42])])
                         "root/x.txt" 1 (ErrBackend "connection reset"))
           [x41; x42] 1); reflexivity.
Defined.

(** X13: the handle [Open] returns together with an error other than
    [ErrNotFound] cannot be used: [file.Read] and [file.Close] forward to
    its nil reader and panic. *)
Theorem failed_handle_panics (bn root p : string) (b : Bucket)
        (rd : option Reader) (e : error) :
  NewReader b (GoPath.Join [root; p]) = (rd, Some e) ->
  e <> Storage ErrObjectNotExist ->
  exists f,
    Open (New None bn root) b p = Ret (Some f, Some e)
    /\ (forall n, file_Read f n = Panic)
    /\ file_Close f = Panic.
Proof.
  intros H N. exists {| r := None |}. split; [|split; reflexivity].
  rewrite Open_unfold, H. rewrite bool_decide_eq_false_2 by congruence.
  now rewrite (NewReader_error_nil _ _ _ _ H).
Qed.

Lemma failed_handle_panics_witness :
  exists f,
    Open (New None "bucket" "root")
         (failing_reader (bucket_of [("root/x.txt", [x41])]) "root/x.txt"
                         (ErrBackend "permission denied")) "x.txt"
    = Ret (Some f, Some (Storage (ErrBackend "permission denied")))
    /\ (forall n, file_Read f n = Panic)
    /\ file_Close f = Panic.
Proof.
  apply (failed_handle_panics "bucket" "root" "x.txt"
           (failing_reader (bucket_of [("root/x.txt", [x41])]) "root/x.txt"
                           (ErrBackend "permission denied")) None);
    [reflexivity|discriminate].
Defined.

(** X14: where an object with content [c] exists and can be opened,
    reading the handle of [Open] through [file.Read] with a buffer of any
    positive size until the stream ends delivers exactly [c], or, when
    the backend fails the read after [k] bytes with [e], the first [k]
    bytes of [c] and the error [e]. *)
Theorem opened_file_reads_content (bn root p : string) (b : Bucket)
        (c : list byte) (n : nat) :
  objects b !! GoPath.Join [root; p] = Some c ->
  newReaderErr (faults b) (GoPath.Join [root; p]) = None ->
  0 < n ->
  exists f,
    Open (New None bn root) b p = Ret (Some f, None)
    /\ read_to_end (S (length c)) n f []
       = Some (match readErr (faults b) (GoPath.Join [root; p]) with
               | Some (k, e) => Ret (take k c, Some (Storage e))
               | None => Ret (c, None)
               end).
Proof.
  intros Ho Hn Hpos. set (key := GoPath.Join [root; p]) in *.
  rewrite Open_unfold. fold key. unfold NewReader. rewrite Hn, Ho.
  destruct (readErr (faults b) key) as [[k e]|].
  - exists {| r := Some {| rdata := take k c; rerr := Some (Storage e) |} |}.
    split; [reflexivity|].
    rewrite read_to_end_reader; [reflexivity|assumption|].
    cbn [rdata]. rewrite length_take. lia.
  - exists {| r := Some {| rdata := c; rerr := None |} |}.
    split; [reflexivity|].
    rewrite read_to_end_reader; [reflexivity|assumption|]. cbn [rdata]. lia.
Qed.

Lemma opened_file_reads_content_witness :
  exists f,
    Open (New None "bucket" "root")
         (bucket_of [("root/x.txt", [x41; x42; x43])]) "x.txt"
    = Ret (Some f, None)
    /\ read_to_end 4 2 f [] = Some (Ret ([x41; x42; x43], None)).
Proof.
  apply (opened_file_reads_content "bucket" "root" "x.txt"
           (bucket_of [("root/x.txt", [x41; x42; x43])]) [x41; x42; x43] 2);
    [reflexivity|reflexivity|lia].
Defined.

(* ===================================================================== *)
(** ** The key of a file under a directory *)
(* ===================================================================== *)

Section CleanChild.

Import GoPath.

Lemma at_end_or_slash_app (rest rest2 : list ascii) :
  at_end_or_slash (rest ++ slash :: rest2) = at_end_or_slash rest.
Proof. now destruct rest. Qed.

Lemma copy_element_app (rest rest2 : list ascii) :
  copy_element (rest ++ slash :: rest2)
  = (fst (copy_element rest), snd (copy_element rest) ++ slash :: rest2).
Proof.
  induction rest as [|c rest IH]; simpl; [reflexivity|].
  destruct (is_slash c); [reflexivity|].
  rewrite IH. now destruct (copy_element rest).
Qed.

Lemma copy_element_head (c : ascii) (rest1 : list ascii) :
  is_slash c = false ->
  exists e' r,
    copy_element (c :: rest1) = (c :: e', r)
    /\ Forall (fun a => a <> slash) (c :: e')
    /\ length r <= length rest1.
Proof.
  intros Es. pose proof (copy_element_spec rest1) as Hs.
  pose proof (copy_element_length rest1) as Hl.
  simpl. rewrite Es. destruct (copy_element rest1) as [e1 r1].
  destruct (Hs e1 r1 eq_refl) as [Hf _]. exists e1, r1.
  split; [reflexivity|]. split; [|exact Hl].
  constructor; [now apply is_slash_false|assumption].
Qed.

(** Reading the input up to a separator leaves the loop in a state that
    keeps the invariant, and from which the rest of the input is read as
    if the loop had started there. *)
Lemma Clean_loop_split (fuel : nat) :
  forall rooted rest out dotdot,
    Clean_inv rooted out dotdot -> length rest <= fuel ->
    exists dotdot',
      Clean_inv rooted (Clean_loop fuel rooted rest out dotdot) dotdot'
      /\ forall rest2 f2,
          length rest + 1 + length rest2 <= f2 ->
          Clean_loop f2 rooted (rest ++ slash :: rest2) out dotdot
          = Clean_loop (length rest2) rooted rest2
                       (Clean_loop fuel rooted rest out dotdot) dotdot'.
Proof.
  assert (Hnil : forall rooted out dotdot rest2 f2,
             1 + length rest2 <= f2 ->
             Clean_loop f2 rooted (slash :: rest2) out dotdot
             = Clean_loop (length rest2) rooted rest2 out dotdot).
  { intros rooted out dotdot rest2 [|f2] Hf; [lia|]. simpl.
    apply Clean_loop_fuel; lia. }
  induction fuel as [|fuel IH]; intros rooted rest out dotdot Hinv Hlen.
  { destruct rest; [|simpl in Hlen; lia]. exists dotdot.
    split; [exact Hinv|]. intros rest2 f2 Hf. apply Hnil. simpl in Hf. lia. }
  destruct rest as [|c rest1].
  { exists dotdot. split; [exact Hinv|].
    intros rest2 f2 Hf. apply Hnil. simpl in Hf. lia. }
  simpl in Hlen.
  (* the case of a real path element, met in two places below *)
  assert (Helem :
    is_slash c = false ->
    exists d,
      Clean_inv rooted
        (let '(e, rest') := copy_element (c :: rest1) in
         Clean_loop fuel rooted rest'
           ((if (rooted && negb (length out =? 1))
                || (negb rooted && negb (length out =? 0))
             then out ++ [slash] else out) ++ e) dotdot) d
      /\ forall rest2 f2,
          length rest1 + 1 + length rest2 <= f2 ->
          (let '(e, rest') := copy_element ((c :: rest1) ++ slash :: rest2) in
           Clean_loop f2 rooted rest'
             ((if (rooted && negb (length out =? 1))
                  || (negb rooted && negb (length out =? 0))
               then out ++ [slash] else out) ++ e) dotdot)
          = Clean_loop (length rest2) rooted rest2
              (let '(e, rest') := copy_element (c :: rest1) in
               Clean_loop fuel rooted rest'
                 ((if (rooted && negb (length out =? 1))
                      || (negb rooted && negb (length out =? 0))
                   then out ++ [slash] else out) ++ e) dotdot) d).
  { intros Es. destruct (copy_element_head c rest1 Es) as (e' & r & Ee & Hfe & Hr).
    destruct (IH rooted r _ dotdot
                (Clean_inv_element rooted out dotdot c e' Hinv Hfe) ltac:(lia))
      as (d & Hd & Heq).
    exists d. rewrite Ee. split; [exact Hd|].
    intros rest2 f2 Hf. rewrite copy_element_app, Ee. cbn [fst snd].
    apply Heq. lia. }
  cbn [Clean_loop].
  destruct (is_slash c) eqn:Es.
  { destruct (IH rooted rest1 out dotdot Hinv ltac:(lia)) as (d & Hd & Heq).
    exists d. split; [exact Hd|]. intros rest2 [|f2] Hf; simpl in Hf; [lia|].
    rewrite <- app_comm_cons. cbn [Clean_loop]. rewrite Es.
    apply Heq. lia. }
  destruct (is_dot c) eqn:Edot; cbn [andb].
  2:{ destruct (Helem eq_refl) as (d & Hd & Heq). exists d.
      split; [exact Hd|]. intros rest2 [|f2] Hf; simpl in Hf; [lia|].
      rewrite <- app_comm_cons. cbn [Clean_loop]. rewrite Es, Edot.
      cbn [andb]. rewrite app_comm_cons. apply Heq. lia. }
  destruct (at_end_or_slash rest1) eqn:Ea.
  { destruct (IH rooted rest1 out dotdot Hinv ltac:(lia)) as (d & Hd & Heq).
    exists d. split; [exact Hd|]. intros rest2 [|f2] Hf; simpl in Hf; [lia|].
    rewrite <- app_comm_cons. cbn [Clean_loop].
    rewrite Es, Edot, at_end_or_slash_app, Ea. cbn [andb]. apply Heq. lia. }
  destruct rest1 as [|c1 rest2']; [discriminate|].
  destruct (is_dot c1 && at_end_or_slash rest2') eqn:Edd.
  2:{ destruct (Helem eq_refl) as (d & Hd & Heq). exists d.
      split; [exact Hd|]. intros rest2 [|f2] Hf; simpl in Hf; [lia|].
      rewrite <- app_comm_cons. cbn [Clean_loop].
      rewrite Es, Edot, at_end_or_slash_app, Ea. cbn [andb].
      rewrite <- app_comm_cons, at_end_or_slash_app, Edd.
      rewrite !app_comm_cons. apply Heq. simpl. lia. }
  (* .. element *)
  cbn [tl]. simpl in Hlen.
  assert (Hstep : forall rest2 f2,
    Clean_loop (S f2) rooted ((c :: c1 :: rest2') ++ slash :: rest2) out dotdot
    = if dotdot <? length out
      then Clean_loop f2 rooted (rest2' ++ slash :: rest2)
             (firstn (backtrack out dotdot (length out - 1)) out) dotdot
      else if negb rooted
           then Clean_loop f2 rooted (rest2' ++ slash :: rest2)
                  ((if 0 <? length out then out ++ [slash] else out)
                   ++ [dot; dot])
                  (length ((if 0 <? length out then out ++ [slash] else out)
                           ++ [dot; dot]))
           else Clean_loop f2 rooted (rest2' ++ slash :: rest2) out dotdot).
  { intros rest2 f2. rewrite <- !app_comm_cons. cbn [Clean_loop].
    rewrite Es, Edot. cbn [andb at_end_or_slash].
    cbn [at_end_or_slash] in Ea. rewrite Ea, at_end_or_slash_app, Edd.
    reflexivity. }
  destruct (Nat.ltb_spec dotdot (length out)) as [Hlt|Hge].
  - destruct (IH rooted rest2' _ dotdot
                 (Clean_inv_backtrack _ _ _ Hinv Hlt) ltac:(lia))
      as (d & Hd & Heq).
    exists d. split; [exact Hd|].
    intros rest2 [|f2] Hf; simpl in Hf; [lia|].
    rewrite Hstep. destruct (Nat.ltb_spec dotdot (length out)); [|lia].
    apply Heq. lia.
  - destruct rooted; cbn [negb].
    + destruct (IH true rest2' out dotdot Hinv ltac:(lia)) as (d & Hd & Heq).
      exists d. split; [exact Hd|].
      intros rest2 [|f2] Hf; simpl in Hf; [lia|].
      rewrite Hstep. destruct (Nat.ltb_spec dotdot (length out)); [lia|].
      cbn [negb]. apply Heq. lia.
    + destruct (IH false rest2' _ _ (Clean_inv_dotdot _ _ Hinv) ltac:(lia))
        as (d & Hd & Heq).
      exists d. split; [exact Hd|].
      intros rest2 [|f2] Hf; simpl in Hf; [lia|].
      rewrite Hstep. destruct (Nat.ltb_spec dotdot (length out)); [lia|].
      cbn [negb]. apply Heq. lia.
Qed.

Lemma copy_element_no_slash (l : list ascii) :
  Forall (fun a => a <> slash) l -> copy_element l = (l, []).
Proof.
  induction 1 as [|a l Ha Hl IH]; simpl; [reflexivity|].
  apply is_slash_false in Ha. now rewrite Ha, IH.
Qed.

Lemma is_dot_true (c : ascii) : is_dot c = true <-> c = dot.
Proof. unfold is_dot. apply Ascii.eqb_eq. Qed.

(** An element that is neither empty nor [.] nor [..] is appended as it
    is, after a separator when the buffer needs one. *)
Lemma Clean_loop_plain (fuel : nat) (rooted : bool) (e out : list ascii)
      (dotdot : nat) :
  e <> [] -> Forall (fun a => a <> slash) e -> e <> [dot] -> e <> [dot; dot] ->
  length e <= fuel ->
  Clean_loop fuel rooted e out dotdot
  = (if (rooted && negb (length out =? 1))
        || (negb rooted && negb (length out =? 0))
     then out ++ [slash] else out) ++ e.
Proof.
  intros Hne Hf Hd Hdd Hlen.
  destruct e as [|c e']; [congruence|].
  destruct fuel as [|fuel]; [simpl in Hlen; lia|].
  cbn [Clean_loop]. rewrite (copy_element_no_slash _ Hf), Clean_loop_nil.
  apply Forall_cons in Hf as [Hc Hf]. apply is_slash_false in Hc. rewrite Hc.
  destruct (is_dot c) eqn:Edot; [|reflexivity]. cbn [andb].
  apply is_dot_true in Edot. subst c.
  destruct e' as [|c1 e'']; [congruence|].
  apply Forall_cons in Hf as [Hc1 Hf]. apply is_slash_false in Hc1.
  cbn [at_end_or_slash]. rewrite Hc1.
  destruct (is_dot c1) eqn:Edot1; [|reflexivity]. cbn [andb].
  apply is_dot_true in Edot1. subst c1.
  destruct e'' as [|c2 e3]; [congruence|].
  apply Forall_cons in Hf as [Hc2 Hf]. apply is_slash_false in Hc2.
  cbn [at_end_or_slash]. now rewrite Hc2.
Qed.

Lemma Clean_inv_rooted_start : Clean_inv true [slash] 1.
Proof.
  refine (conj _ (conj _ (conj _ _)));
    [intros [|i]; discriminate|auto|auto|discriminate].
Qed.

Lemma Clean_inv_start : Clean_inv false [] 0.
Proof.
  refine (conj _ (conj _ (conj _ _)));
    [intros [|i]; discriminate|discriminate|discriminate|].
  intros _. split; [simpl; lia|discriminate].
Qed.

Lemma Clean_bytes_child (p e : list ascii) :
  p <> [] -> Clean_bytes p <> [dot] -> Clean_bytes p <> [slash] ->
  e <> [] -> Forall (fun a => a <> slash) e -> e <> [dot] -> e <> [dot; dot] ->
  Clean_bytes (p ++ slash :: e) = Clean_bytes p ++ slash :: e.
Proof.
  intros Hp Hnd Hns He Hf Hd Hdd.
  destruct p as [|c p']; [congruence|].
  rewrite <- app_comm_cons. unfold Clean_bytes in *.
  destruct (is_slash c) eqn:Es.
  - destruct (Clean_loop_split (length p') true p' [slash] 1
                Clean_inv_rooted_start (le_n _)) as (d & Hinv & Heq).
    rewrite (Heq e) by (rewrite length_app; simpl; lia).
    set (out0 := Clean_loop (length p') true p' [slash] 1) in *.
    rewrite Clean_loop_plain by (assumption || lia).
    destruct Hinv as (_ & _ & Hr & _). destruct (Hr eq_refl) as [_ Hh].
    destruct out0 as [|a [|a' t]]; [discriminate| |].
    + simpl in Hh. injection Hh as ->. congruence.
    + cbn. now rewrite <- app_assoc.
  - destruct (Clean_loop_split (length (c :: p')) false (c :: p') [] 0
                Clean_inv_start (le_n _)) as (d & Hinv & Heq).
    rewrite app_comm_cons.
    rewrite (Heq e) by (rewrite length_app; simpl; lia).
    set (out0 := Clean_loop (length (c :: p')) false (c :: p') [] 0) in *.
    rewrite Clean_loop_plain by (assumption || lia).
    destruct out0 as [|a t]; [congruence|].
    cbn. now rewrite <- app_assoc.
Qed.

Lemma string_of_list_ascii_app (a b : list ascii) :
  string_of_list_ascii (a ++ b)
  = string_of_list_ascii a +:+ string_of_list_ascii b.
Proof.
  induction a as [|x a IH]; [reflexivity|].
  change (String x (string_of_list_ascii (a ++ b))
          = String x (string_of_list_ascii a +:+ string_of_list_ascii b)).
  now rewrite IH.
Qed.

Lemma Count_zero_Forall (nm : string) :
  GoStrings.Count nm slash = 0 ->
  Forall (fun a => a <> slash) (list_ascii_of_string nm).
Proof.
  induction nm as [|a nm IH]; simpl; [constructor|].
  destruct (Ascii.eqb_spec a slash); [discriminate|].
  intros H. constructor; [assumption|now apply IH].
Qed.

Lemma list_ascii_of_string_neq (s : string) (l : list ascii) :
  s <> string_of_list_ascii l -> list_ascii_of_string s <> l.
Proof.
  intros H E. apply H. now rewrite <- E, string_of_list_ascii_of_string.
Qed.

(** Cleaning a path followed by a separator and a plain element. *)
Lemma Clean_child (s nm : string) :
  s <> "" -> Clean s <> "." -> Clean s <> "/" -> plain_element nm ->
  Clean ((s +:+ "/") +:+ nm) = (Clean s +:+ "/") +:+ nm.
Proof.
  intros Hs Hd Hr (Hne & Hc & Hnd & Hndd). unfold Clean in *.
  rewrite !list_ascii_of_string_append. cbn [list_ascii_of_string].
  rewrite <- app_assoc. cbn [app].
  rewrite Clean_bytes_child.
  - rewrite (cons_middle slash), app_assoc, !string_of_list_ascii_app.
    now rewrite string_of_list_ascii_of_string.
  - now apply list_ascii_of_string_neq.
  - intros E. apply Hd. now rewrite E.
  - intros E. apply Hr. now rewrite E.
  - now apply list_ascii_of_string_neq.
  - now apply Count_zero_Forall.
  - now apply list_ascii_of_string_neq.
  - now apply list_ascii_of_string_neq.
Qed.

Lemma append_nonempty_l (s t : string) : s <> "" -> s +:+ t <> "".
Proof. destruct s; [congruence|discriminate]. Qed.

Lemma append_nonempty_r (s t : string) : t <> "" -> s +:+ t <> "".
Proof. destruct s; [now simpl|discriminate]. Qed.

(** The key of [dir/nm] is the key of [dir], a separator, and [nm]. *)
Lemma Join_child (root dir nm : string) :
  proper_dir_key (Join [root; dir]) -> plain_element nm ->
  Join [root; (dir +:+ "/") +:+ nm] = (Join [root; dir] +:+ "/") +:+ nm.
Proof.
  intros (Hne & Hd & Hr) Hnm. rewrite !Join_two in *.
  assert (Hp : (dir +:+ "/") +:+ nm <> "")
    by (apply append_nonempty_l, append_nonempty_r; discriminate).
  destruct (String.eqb_spec root "") as [->|Hroot].
  - destruct (String.eqb_spec dir "") as [->|Hdir]; [congruence|].
    destruct (String.eqb_spec ((dir +:+ "/") +:+ nm) ""); [congruence|].
    now apply Clean_child.
  - rewrite <- !append_assoc. apply Clean_child; try assumption.
    apply append_nonempty_l, append_nonempty_l. assumption.
Qed.

End CleanChild.

Section ChildKeys.

Lemma child_key_neq (P nm : string) : P <> (P +:+ "/") +:+ nm.
Proof.
  intros E. apply (f_equal String.length) in E.
  rewrite !length_append in E. simpl in E. lia.
Qed.

Lemma child_in_listing (b : Bucket) (P nm : string) :
  is_Some (objects b !! ((P +:+ "/") +:+ nm)) ->
  GoStrings.Count nm GoPath.slash = 0 ->
  nm ∈ GoSort.Sort (child_names (String.length P)
                      (List.filter (String.prefix P) (names b))).
Proof.
  intros Hk Hc. rewrite list_elem_of_In, Sort_In, <- list_elem_of_In.
  rewrite <- (rel_name_separated P nm).
  apply child_names_intro; [|now rewrite rel_name_separated].
  rewrite list_elem_of_In, filter_In, names_spec.
  split; [assumption|apply prefix_child].
Qed.

Lemma listed_name_object (b : Bucket) (P nm : string) :
  (forall k, is_Some (objects b !! k) -> String.prefix P k = true ->
             String.prefix (P +:+ "/") k = true) ->
  nm ∈ GoSort.Sort (child_names (String.length P)
                      (List.filter (String.prefix P) (names b))) ->
  is_Some (objects b !! ((P +:+ "/") +:+ nm))
  /\ GoStrings.Count nm GoPath.slash = 0.
Proof.
  intros Hsep Hnm.
  rewrite list_elem_of_In, Sort_In, <- list_elem_of_In in Hnm.
  split; [|now apply child_names_no_separator in Hnm].
  apply child_names_elem in Hnm as (k & Hk & E).
  rewrite list_elem_of_In, filter_In, names_spec in Hk.
  destruct Hk as [Hs Hp].
  destruct (prefix_append_inv _ _ (Hsep k Hs Hp)) as [t ->].
  rewrite rel_name_separated in E. now rewrite <- E.
Qed.

End ChildKeys.

(** X15: a file created under a directory is listed in it.  For a
    directory whose resolved key [P] is neither empty nor [.] nor [/], with
    no object named [P] itself, and a plain file name [nm]: on a backend
    that fails neither the requests for the file nor the listing, writing
    through [Create (dir/nm)] and closing makes [ReadDir dir] succeed with
    an entry named [nm]. *)
Theorem created_file_is_listed (bn root dir nm : string) (b : Bucket)
        (c : list byte) :
  proper_dir_key (GoPath.Join [root; dir]) ->
  plain_element nm ->
  fault_free b (GoPath.Join [root; (dir +:+ "/") +:+ nm]) ->
  listErr (faults b) (GoPath.Join [root; dir]) = None ->
  objects b !! GoPath.Join [root; dir] = None ->
  exists w b' entries,
    Create (New None bn root) ((dir +:+ "/") +:+ nm) = Ret (Some w, None)
    /\ write_close b w c = (None, b')
    /\ ReadDir (New None bn root) b' dir = Ret (Some entries, None)
    /\ {| name := nm |} ∈ entries.
Proof.
  intros HP Hnm (_ & _ & Hw & Hc) Hl Hno.
  pose proof (Join_child root dir nm HP Hnm) as Hkey.
  set (P := GoPath.Join [root; dir]) in *.
  set (key := GoPath.Join [root; (dir +:+ "/") +:+ nm]) in *.
  set (b' := {| objects := <[key := c]> (objects b); faults := faults b |}).
  assert (Hk : is_Some (objects b' !! ((P +:+ "/") +:+ nm))).
  { rewrite <- Hkey. exists c. apply lookup_insert_eq. }
  exists (NewWriter key), b'. eexists.
  split; [reflexivity|].
  split; [now apply (write_close_stores b (NewWriter key) c)|].
  split.
  - apply (ReadDir_succeeds bn root b' dir ((P +:+ "/") +:+ nm));
      [exact Hl| |exact Hk|apply prefix_child].
    simpl. rewrite lookup_insert_ne; [exact Hno|].
    rewrite Hkey. intros E. symmetry in E. now apply child_key_neq in E.
  - apply entries_elem. simpl. apply child_in_listing; [exact Hk|].
    now destruct Hnm as (_ & ? & _).
Qed.

Lemma created_file_is_listed_witness :
  exists w b' entries,
    Create (New None "bucket" "root") (("dir" +:+ "/") +:+ "a.txt")
    = Ret (Some w, None)
    /\ write_close (bucket_of [("root/dir/b.txt", [x42])]) w [x41] = (None, b')
    /\ ReadDir (New None "bucket" "root") b' "dir" = Ret (Some entries, None)
    /\ {| name := "a.txt" |} ∈ entries.
Proof.
  apply (created_file_is_listed "bucket" "root" "dir" "a.txt"
           (bucket_of [("root/dir/b.txt", [x42])]) [x41]).
  - repeat split; discriminate.
  - repeat split; (reflexivity || discriminate).
  - repeat split; reflexivity.
  - reflexivity.
  - reflexivity.
Defined.

(** X16: a listed entry can be opened under the directory.  For a
    directory whose resolved key [P] is neither empty nor [.] nor [/], in
    a bucket where every object name with the prefix [P] continues it with
    a separator: an entry of the listing of [dir] whose name is neither
    empty nor [.] nor [..] names an object, and, when the backend does
    not fail its readers, [Open (dir/name)] reads exactly that object. *)
Theorem listed_entry_opens (bn root dir : string) (b : Bucket)
        (entries : list dirEntry) (en : dirEntry) :
  proper_dir_key (GoPath.Join [root; dir]) ->
  listErr (faults b) (GoPath.Join [root; dir]) = None ->
  (forall k, is_Some (objects b !! k) ->
             String.prefix (GoPath.Join [root; dir]) k = true ->
             String.prefix (GoPath.Join [root; dir] +:+ "/") k = true) ->
  ReadDir (New None bn root) b dir = Ret (Some entries, None) ->
  en ∈ entries ->
  name en <> "" -> name en <> "." -> name en <> ".." ->
  newReaderErr (faults b) (GoPath.Join [root; (dir +:+ "/") +:+ name en]) = None ->
  readErr (faults b) (GoPath.Join [root; (dir +:+ "/") +:+ name en]) = None ->
  exists c f,
    objects b !! GoPath.Join [root; (dir +:+ "/") +:+ name en] = Some c
    /\ Open (New None bn root) b ((dir +:+ "/") +:+ name en) = Ret (Some f, None)
    /\ ReadAll f = Ret (c, None).
Proof.
  intros HP Hl Hsep HR Hen Hne Hnd Hndd Hn Hr.
  rewrite (ReadDir_success _ _ _ _ _ Hl HR) in Hen.
  apply entries_elem in Hen.
  destruct (listed_name_object b _ _ Hsep Hen) as [[c Hc] Hcount].
  assert (Hplain : plain_element (name en)) by (repeat split; assumption).
  rewrite <- (Join_child root dir (name en) HP Hplain) in Hc.
  exists c, {| r := Some {| rdata := c; rerr := None |} |}.
  split; [exact Hc|]. split; [|reflexivity].
  rewrite Open_unfold. now rewrite (NewReader_present _ _ c).
Qed.

Lemma listed_entry_opens_witness :
  exists c f,
    objects (bucket_of [("dir/a", [x41]); ("dir/b", [x42; x43])])
      !! GoPath.Join [""; ("dir" +:+ "/") +:+ name {| name := "b" |}] = Some c
    /\ Open (New None "bucket" "")
            (bucket_of [("dir/a", [x41]); ("dir/b", [x42; x43])])
            (("dir" +:+ "/") +:+ name {| name := "b" |})
       = Ret (Some f, None)
    /\ ReadAll f = Ret (c, None).
Proof.
  apply (listed_entry_opens "bucket" "" "dir"
           (bucket_of [("dir/a", [x41]); ("dir/b", [x42; x43])])
           [ {| name := "a" |}; {| name := "b" |} ] {| name := "b" |}).
  - repeat split; discriminate.
  - reflexivity.
  - apply two_files_separated.
  - vm_compute. reflexivity.
  - apply list_elem_of_further, list_elem_of_here.
  - discriminate.
  - discriminate.
  - discriminate.
  - reflexivity.
  - reflexivity.
Defined.

(* ===================================================================== *)
(** ** Paths that resolve to the same key, and keys outside the root *)
(* ===================================================================== *)

Section Resolution.

Import GoPath.

Lemma Join_trailing_separator (root p : string) :
  root <> "" \/ p <> "" -> Join [root; p +:+ "/"] = Join [root; p].
Proof.
  intros H. rewrite !Join_two.
  destruct (String.eqb_spec root "") as [->|Hroot].
  - destruct H as [H|H]; [congruence|].
    destruct (String.eqb_spec p ""); [congruence|].
    destruct (String.eqb_spec (p +:+ "/") "") as [E|_].
    + now apply append_nonempty_l in E.
    + now apply Clean_trailing.
  - rewrite <- append_assoc. apply Clean_trailing.
    now apply append_nonempty_l, append_nonempty_l.
Qed.

(** One turn of the loop on a plain element that is followed by a
    separator. *)
Lemma Clean_loop_plain_step (fuel : nat) (rooted : bool)
      (e rest2 out : list ascii) (dotdot : nat) :
  e <> [] -> Forall (fun a => a <> slash) e -> e <> [dot] -> e <> [dot; dot] ->
  Clean_loop (S fuel) rooted (e ++ slash :: rest2) out dotdot
  = Clean_loop fuel rooted (slash :: rest2)
      ((if (rooted && negb (length out =? 1))
           || (negb rooted && negb (length out =? 0))
        then out ++ [slash] else out) ++ e) dotdot.
Proof.
  intros Hne Hf Hd Hdd.
  assert (Hcopy : copy_element (e ++ slash :: rest2) = (e, slash :: rest2)).
  { rewrite copy_element_app, (copy_element_no_slash _ Hf). reflexivity. }
  destruct e as [|c e']; [congruence|].
  rewrite <- app_comm_cons. cbn [Clean_loop].
  rewrite app_comm_cons, Hcopy.
  apply Forall_cons in Hf as [Hc Hf]. apply is_slash_false in Hc. rewrite Hc.
  rewrite at_end_or_slash_app.
  destruct (is_dot c) eqn:Edot; [|reflexivity]. cbn [andb].
  apply is_dot_true in Edot. subst c.
  destruct e' as [|c1 e'']; [congruence|].
  apply Forall_cons in Hf as [Hc1 Hf]. apply is_slash_false in Hc1.
  cbn [at_end_or_slash]. rewrite Hc1. rewrite <- app_comm_cons.
  rewrite at_end_or_slash_app.
  destruct (is_dot c1) eqn:Edot1; [|reflexivity]. cbn [andb].
  apply is_dot_true in Edot1. subst c1.
  destruct e'' as [|c2 e3]; [congruence|].
  apply Forall_cons in Hf as [Hc2 Hf]. apply is_slash_false in Hc2.
  cbn [at_end_or_slash]. now rewrite Hc2.
Qed.

Lemma backtrack_no_slash (out : list ascii) (w : nat) :
  Forall (fun a => a <> slash) out -> w < length out ->
  backtrack out 0 w = 0.
Proof.
  intros Hf. induction w as [|w IH]; intros Hw; [reflexivity|].
  simpl. destruct (lookup_lt_is_Some_2 out (S w) Hw) as [x Hx].
  rewrite nth_lookup, Hx. simpl.
  assert (Hxs : is_slash x = false).
  { apply is_slash_false. rewrite List.Forall_forall in Hf. apply Hf.
    apply list_elem_of_In, list_elem_of_lookup. eauto. }
  rewrite Hxs. simpl. apply IH. lia.
Qed.

(** [root/../nm] cleans to [nm] when [root] and [nm] are plain elements. *)
Lemma Clean_bytes_parent (r nm : list ascii) :
  r <> [] -> Forall (fun a => a <> slash) r -> r <> [dot] -> r <> [dot; dot] ->
  nm <> [] -> Forall (fun a => a <> slash) nm -> nm <> [dot] ->
  nm <> [dot; dot] ->
  Clean_bytes (r ++ slash :: dot :: dot :: slash :: nm) = nm.
Proof.
  intros Hr Hrf Hrd Hrdd Hn Hnf Hnd Hndd.
  assert (Hloop : forall f,
    Clean_loop (4 + (length nm + f)) false
               (r ++ slash :: dot :: dot :: slash :: nm) [] 0 = nm).
  { intros f. cbn [Nat.add]. rewrite Clean_loop_plain_step by assumption.
    cbn [length Nat.eqb negb andb orb app].
    cbn [Clean_loop]. replace (is_slash slash) with true by reflexivity.
    cbn [Clean_loop]. replace (is_slash dot) with false by reflexivity.
    replace (is_dot dot) with true by reflexivity.
    cbn [andb at_end_or_slash tl].
    replace (is_slash dot) with false by reflexivity.
    replace (is_slash slash) with true by reflexivity.
    replace (is_dot dot) with true by reflexivity. cbn [andb].
    destruct (Nat.ltb_spec 0 (length r)) as [Hlt|Hge];
      [|destruct r; [congruence|simpl in Hge; lia]].
    rewrite backtrack_no_slash by (assumption || lia).
    cbn [firstn Clean_loop].
    replace (is_slash slash) with true by reflexivity.
    rewrite Clean_loop_plain by (assumption || lia). reflexivity. }
  destruct r as [|c r']; [congruence|].
  rewrite <- app_comm_cons. unfold Clean_bytes.
  apply Forall_cons in Hrf as [Hc Hrf']. pose proof Hc as Hc'.
  apply is_slash_false in Hc'. rewrite Hc'.
  rewrite app_comm_cons.
  replace (length ((c :: r') ++ slash :: dot :: dot :: slash :: nm))
    with (4 + (length nm + length (c :: r')))
    by (rewrite length_app; simpl; lia).
  rewrite Hloop. now destruct nm.
Qed.

Lemma plain_element_bytes (nm : string) :
  plain_element nm ->
  list_ascii_of_string nm <> []
  /\ Forall (fun a => a <> slash) (list_ascii_of_string nm)
  /\ list_ascii_of_string nm <> [dot]
  /\ list_ascii_of_string nm <> [dot; dot].
Proof.
  intros (Hne & Hc & Hd & Hdd).
  repeat split; try (now apply list_ascii_of_string_neq).
  now apply Count_zero_Forall.
Qed.

Lemma Join_parent (root nm : string) :
  plain_element root -> plain_element nm ->
  Join [root; "../" +:+ nm] = nm.
Proof.
  intros Hroot Hnm. rewrite Join_two.
  destruct (String.eqb_spec root "") as [->|_];
    [now destruct Hroot as [? _]|].
  destruct (plain_element_bytes _ Hroot) as (? & ? & ? & ?).
  destruct (plain_element_bytes _ Hnm) as (? & ? & ? & ?).
  unfold Clean. rewrite !list_ascii_of_string_append.
  cbn [list_ascii_of_string]. rewrite <- app_assoc. cbn [app].
  rewrite Clean_bytes_parent by assumption.
  apply string_of_list_ascii_of_string.
Qed.

Lemma Clean_plain (nm : string) : plain_element nm -> Clean nm = nm.
Proof.
  intros Hnm. destruct (plain_element_bytes _ Hnm) as (Hne & Hf & Hd & Hdd).
  unfold Clean, Clean_bytes.
  destruct (list_ascii_of_string nm) as [|c e] eqn:E; [congruence|].
  pose proof Hf as Hf'. apply Forall_cons in Hf' as [Hc _].
  apply is_slash_false in Hc. rewrite Hc.
  rewrite Clean_loop_plain by (assumption || lia).
  cbn [length Nat.eqb negb andb orb app].
  rewrite <- E. apply string_of_list_ascii_of_string.
Qed.

End Resolution.

(** X17: a separator at the end of a logical path does not matter: as
    long as the root prefix and the path are not both empty, [Create],
    [Open], [Append] and [ReadDir] do for [p/] exactly what they do for
    [p]. *)
Theorem trailing_separator_ignored (bn root p : string) (b : Bucket) :
  root <> "" \/ p <> "" ->
  Create (New None bn root) (p +:+ "/") = Create (New None bn root) p
  /\ Open (New None bn root) b (p +:+ "/") = Open (New None bn root) b p
  /\ Append (New None bn root) b (p +:+ "/") = Append (New None bn root) b p
  /\ ReadDir (New None bn root) b (p +:+ "/") = ReadDir (New None bn root) b p.
Proof.
  intros H. pose proof (Join_trailing_separator root p H) as HJ.
  unfold Append, ReadDir, Open, Create. cbn [New prefix bucket err].
  rewrite HJ. repeat split.
Qed.

Lemma trailing_separator_ignored_witness :
  Create (New None "bucket" "root") ("dir" +:+ "/")
  = Create (New None "bucket" "root") "dir"
  /\ Open (New None "bucket" "root") (bucket_of [("root/dir/a", [x41])])
          ("dir" +:+ "/")
     = Open (New None "bucket" "root") (bucket_of [("root/dir/a", [x41])]) "dir"
  /\ Append (New None "bucket" "root") (bucket_of [("root/dir/a", [x41])])
            ("dir" +:+ "/")
     = Append (New None "bucket" "root") (bucket_of [("root/dir/a", [x41])])
              "dir"
  /\ ReadDir (New None "bucket" "root") (bucket_of [("root/dir/a", [x41])])
             ("dir" +:+ "/")
     = ReadDir (New None "bucket" "root") (bucket_of [("root/dir/a", [x41])])
               "dir".
Proof.
  apply (trailing_separator_ignored "bucket" "root" "dir"
           (bucket_of [("root/dir/a", [x41])])).
  left. discriminate.
Defined.

(** X18: the root prefix does not confine the keys.  When the root
    prefix and [nm] are plain path elements, the logical path [../nm]
    resolves to the key [nm], outside the root: [Create] returns a writer
    for the object [nm], and [Open] and [ReadDir] do what a file system
    with the empty root prefix does for [nm]. *)
Theorem parent_path_leaves_root (bn root nm : string) (b : Bucket) :
  plain_element root -> plain_element nm ->
  Create (New None bn root) ("../" +:+ nm) = Ret (Some (NewWriter nm), None)
  /\ Open (New None bn root) b ("../" +:+ nm) = Open (New None bn "") b nm
  /\ ReadDir (New None bn root) b ("../" +:+ nm) = ReadDir (New None bn "") b nm.
Proof.
  intros Hroot Hnm. pose proof (Join_parent root nm Hroot Hnm) as HJ.
  assert (HJ0 : GoPath.Join [""; nm] = nm).
  { rewrite Join_two. destruct (String.eqb_spec nm "") as [E|_];
      [now destruct Hnm as [? _]|]. now apply Clean_plain. }
  unfold ReadDir, Open, Create. cbn [New prefix bucket err].
  rewrite HJ, HJ0. repeat split.
Qed.

Lemma parent_path_leaves_root_witness :
  Create (New None "bucket" "root") ("../" +:+ "secret.txt")
  = Ret (Some (NewWriter "secret.txt"), None)
  /\ Open (New None "bucket" "root") (bucket_of [("secret.txt", [x41])])
          ("../" +:+ "secret.txt")
     = Open (New None "bucket" "") (bucket_of [("secret.txt", [x41])])
            "secret.txt"
  /\ ReadDir (New None "bucket" "root") (bucket_of [("secret.txt", [x41])])
             ("../" +:+ "secret.txt")
     = ReadDir (New None "bucket" "") (bucket_of [("secret.txt", [x41])])
               "secret.txt".
Proof.
  apply (parent_path_leaves_root "bucket" "root" "secret.txt"
           (bucket_of [("secret.txt", [x41])]));
    repeat split; (reflexivity || discriminate).
Defined.
